(** * leap_tracker: a shallow embedding of [src/leap_tracker.py] and [src/exc.py]

    The tracking server listens to a LEAP Motion controller, keeps the last
    hand and fingers it saw, and publishes JointState and PoseStamped
    messages at a fixed rate.

    Modelling choices, once and for all:
    - Python floats are idealised as the real numbers of the Standard
      Library ([math.sin], [math.cos], [math.pi] are [sin], [cos], [PI]);
      rounding is not modelled.
    - [self] and the process-wide effects (logger, standard output, the three
      publishers) live in one record [World], threaded by a state and
      exception monad [M].
    - What the SDK and the middleware decide (frames, clock readings,
      shutdown requests, signals) is an explicit input.
    - Exceptions from outside strike while the loop of [start_transmit]
      runs: at its test, at a statement of the body of its [try], in its
      handler.  The statements before and after the loop and those of
      [main] are taken to run to their end. *)

From Stdlib Require Import Reals Lra ZArith.
From stdpp Require Import base gmap strings list.

(** ** Values of the LEAP SDK *)

(** A [Leap.Vector]: its coordinates and the three angles the SDK exposes as
    attributes of the vector. *)
Record Vector := mkVector {
  vx : R; vy : R; vz : R;
  vpitch : R; vyaw : R; vroll : R
}.

Record Bone := mkBone { bone_direction : Vector }.

Inductive FingerType :=
| TYPE_THUMB | TYPE_INDEX | TYPE_MIDDLE | TYPE_RING | TYPE_PINKY.

(** The integer behind the SDK's enumeration. *)
Definition type_value (ty : FingerType) : nat :=
  match ty with
  | TYPE_THUMB => 0 | TYPE_INDEX => 1 | TYPE_MIDDLE => 2
  | TYPE_RING => 3 | TYPE_PINKY => 4
  end.

Record Finger := mkFinger {
  finger_type : FingerType;
  finger_bones : list Bone
}.

Record Hand := mkHand {
  palm_position : Vector;
  palm_normal : Vector;
  hand_direction : Vector;
  hand_fingers : list Finger
}.

Record Frame := mkFrame { frame_hands : list Hand }.

Definition zero_vector : Vector := mkVector 0 0 0 0 0 0.
Definition invalid_bone : Bone := mkBone zero_vector.

(** [Leap.Finger()] and [Leap.Hand()]: the SDK's invalid objects. *)
Definition Leap_Finger : Finger := mkFinger TYPE_THUMB [].
Definition Leap_Hand : Hand := mkHand zero_vector zero_vector zero_vector [].

(** [finger.bone(j)]; an index without a bone yields the invalid bone. *)
Definition bone (f : Finger) (j : nat) : Bone :=
  nth j (finger_bones f) invalid_bone.

(** ** Messages of the middleware *)

Definition Time := Z.

Record Header := mkHeader { stamp : Time; frame_id : string }.

Record JointState := mkJointState {
  js_header : Header;
  name : list string;
  position : list R
}.

Record Point := mkPoint { px : R; py : R; pz : R }.
Record Quaternion := mkQuaternion { qx : R; qy : R; qz : R; qw : R }.
Record Pose := mkPose { pose_position : Point; orientation : Quaternion }.
Record PoseStamped := mkPoseStamped { ps_header : Header; pose : Pose }.
Record TwistStamped := mkTwistStamped { ts_header : Header }.

Definition empty_header : Header := mkHeader 0%Z "".
Definition JointState_new : JointState := mkJointState empty_header [] [].
Definition PoseStamped_new : PoseStamped :=
  mkPoseStamped empty_header (mkPose (mkPoint 0 0 0) (mkQuaternion 0 0 0 0)).
Definition TwistStamped_new : TwistStamped := mkTwistStamped empty_header.

(** ** Constants *)

Definition NODE_NAME : string := "leap_tracker".
Definition FRAME_ID : string := NODE_NAME.

Definition FINGER_NAMES : list string :=
  ["thumb"; "index"; "middle"; "ring"; "pinky"].
Definition FINGER_BONES : list string := ["meta"; "prox"; "mid"; "dist"].
Definition POS_ATTRIBUTES : list string := ["x"; "y"; "z"].
Definition ORI_ATTRIBUTES : list string := ["roll"; "pitch"; "yaw"].

(** ** Exceptions, logging, the world *)

Inductive exn :=
| KeyboardInterrupt
| QuitMessageException (msg : string)
| IndexError
| KeyError (key : string)
| AttributeError (attr : string)
| ExternalError (what : string).

Inductive Level := INFO | DEBUG | ERROR | WARN.

(** What a log line says; numbers and lists are kept as values instead of
    being rendered into text. *)
Inductive LogText :=
| Text (s : string)
| HandText (pitch x yaw y roll z : R)
| BoneText (finger bone_name : string) (pitch : R)
| JointsText (names : list string).

Record LogEntry := mkLog { level : Level; ns : string; text : LogText }.

Record World := mkWorld {
  self_t : R;
  self_frame : option Frame;
  self_hand : Hand;
  self_fingers : gmap string Finger;
  self_joint_names : list string;
  js_pub : list JointState;
  ps_pub : list PoseStamped;
  ts_pub : list TwistStamped;
  log : list LogEntry;
  stdout : list PoseStamped
}.

Definition set_t (v : R) (w : World) : World :=
  mkWorld v (self_frame w) (self_hand w) (self_fingers w)
    (self_joint_names w) (js_pub w) (ps_pub w) (ts_pub w) (log w) (stdout w).

Definition set_hand (h : Hand) (w : World) : World :=
  mkWorld (self_t w) (self_frame w) h (self_fingers w)
    (self_joint_names w) (js_pub w) (ps_pub w) (ts_pub w) (log w) (stdout w).

Definition set_fingers (m : gmap string Finger) (w : World) : World :=
  mkWorld (self_t w) (self_frame w) (self_hand w) m
    (self_joint_names w) (js_pub w) (ps_pub w) (ts_pub w) (log w) (stdout w).

Definition set_joint_names (l : list string) (w : World) : World :=
  mkWorld (self_t w) (self_frame w) (self_hand w) (self_fingers w)
    l (js_pub w) (ps_pub w) (ts_pub w) (log w) (stdout w).

Definition push_js (m : JointState) (w : World) : World :=
  mkWorld (self_t w) (self_frame w) (self_hand w) (self_fingers w)
    (self_joint_names w) (js_pub w ++ [m]) (ps_pub w) (ts_pub w)
    (log w) (stdout w).

Definition push_ps (m : PoseStamped) (w : World) : World :=
  mkWorld (self_t w) (self_frame w) (self_hand w) (self_fingers w)
    (self_joint_names w) (js_pub w) (ps_pub w ++ [m]) (ts_pub w)
    (log w) (stdout w).

Definition push_log (e : LogEntry) (w : World) : World :=
  mkWorld (self_t w) (self_frame w) (self_hand w) (self_fingers w)
    (self_joint_names w) (js_pub w) (ps_pub w) (ts_pub w)
    (log w ++ [e]) (stdout w).

Definition push_stdout (m : PoseStamped) (w : World) : World :=
  mkWorld (self_t w) (self_frame w) (self_hand w) (self_fingers w)
    (self_joint_names w) (js_pub w) (ps_pub w) (ts_pub w)
    (log w) (stdout w ++ [m]).

(** ** The monad: state, exceptions, and a loop that is still running *)

Inductive result (A : Type) :=
| Ok (a : A)
| Raise (e : exn)
| Pending.
Arguments Ok {A} a.
Arguments Raise {A} e.
Arguments Pending {A}.

Definition M (A : Type) : Type := World -> result A * World.

Definition ret {A} (a : A) : M A := fun w => (Ok a, w).
Definition raise {A} (e : exn) : M A := fun w => (Raise e, w).
Definition bind {A B} (m : M A) (k : A -> M B) : M B :=
  fun w =>
    match m w with
    | (Ok a, w') => k a w'
    | (Raise e, w') => (Raise e, w')
    | (Pending, w') => (Pending, w')
    end.
Definition get : M World := fun w => (Ok w, w).
Definition modify (f : World -> World) : M unit := fun w => (Ok tt, f w).
Definition lift {A} (r : result A) : M A := fun w => (r, w).

(** [try: m except e: h e], the handler seeing only the exceptions [catches]
    accepts. *)
Definition try_except {A} (m : M A) (catches : exn -> bool) (h : exn -> M A)
  : M A :=
  fun w =>
    match m w with
    | (Raise e, w') => if catches e then h e w' else (Raise e, w')
    | r => r
    end.

Declare Scope py_scope.
Delimit Scope py_scope with py.
Notation "x <- m ;; k" := (bind m (fun x => k))
  (at level 100, m at next level, right associativity) : py_scope.
Notation "m ;;; k" := (bind m (fun _ => k))
  (at level 100, right associativity) : py_scope.
Open Scope py_scope.

(** [for a in l: s = body a s]. *)
Fixpoint for_each {A S} (l : list A) (body : A -> S -> M S) (s : S) : M S :=
  match l with
  | [] => ret s
  | a :: l' => s' <- body a s ;; for_each l' body s'
  end.

(** The [Logger] wrapper: one method per severity. *)
Definition LOG_v (s : LogText) (n : string) : M unit :=
  modify (push_log (mkLog INFO n s)).
Definition LOG_d (s : LogText) (n : string) : M unit :=
  modify (push_log (mkLog DEBUG n s)).
Definition LOG_e (s : LogText) (n : string) : M unit :=
  modify (push_log (mkLog ERROR n s)).
Definition LOG_c (s : LogText) (n : string) : M unit :=
  modify (push_log (mkLog WARN n s)).

(** ** Python primitives *)

(** [a % b] on floats, for [b] not zero: the remainder has the sign of [b],
    [a - b * floor (a / b)]. *)
Definition py_mod (a b : R) : R := (a - b * IZR (Int_part (a / b)))%R.

(** [l[i] = v]. *)
Definition setitem {A} (l : list A) (i : nat) (v : A) : result (list A) :=
  if (i <? length l)%nat then Ok (<[i:=v]> l) else Raise IndexError.

(** [d[k]] on a dict. *)
Definition getitem (d : gmap string Finger) (k : string) : result Finger :=
  match d !! k with
  | Some f => Ok f
  | None => Raise (KeyError k)
  end.

(** [getattr(vector, attr)]. *)
Definition getattr (v : Vector) (attr : string) : result R :=
  if String.eqb attr "x" then Ok (vx v)
  else if String.eqb attr "y" then Ok (vy v)
  else if String.eqb attr "z" then Ok (vz v)
  else if String.eqb attr "pitch" then Ok (vpitch v)
  else if String.eqb attr "yaw" then Ok (vyaw v)
  else if String.eqb attr "roll" then Ok (vroll v)
  else Raise (AttributeError attr).

(** ** [LeapServer.test_pose] *)

Definition test_pose : M ((R * R * R) * (R * R * R)) :=
  w <- get ;;
  let t := self_t w in
  let delta := (sin t * 1000)%R in
  let alpha := (cos t * PI * 2)%R in
  let m := py_mod t (PI * 12) in
  if Rlt_dec m (PI * 2) then ret ((delta, 0, 0), (0, 0, 0))%R
  else if Rlt_dec m (PI * 4) then ret ((0, delta, 0), (0, 0, 0))%R
  else if Rlt_dec m (PI * 6) then ret ((0, 0, delta), (0, 0, 0))%R
  else if Rlt_dec m (PI * 8) then ret ((0, 0, 0), (alpha, 0, 0))%R
  else if Rlt_dec m (PI * 10) then ret ((0, 0, 0), (0, alpha, 0))%R
  else if Rlt_dec m (PI * 12) then ret ((0, 0, 0), (0, 0, alpha))%R
  else
    modify (set_t 0) ;;;
    ret ((0, 0, 0), (0, 0, 0))%R.

(** [[f a for a in l]], evaluated from left to right. *)
Fixpoint map_M {A B} (f : A -> M B) (l : list A) : M (list B) :=
  match l with
  | [] => ret []
  | a :: l' => b <- f a ;; bs <- map_M f l' ;; ret (b :: bs)
  end.

Definition enumerate {A} (l : list A) : list (nat * A) := imap pair l.

(** [sorted(l, key=...)] with a key in the natural numbers: insertion from
    the right keeps equal keys in their order, as Python's stable sort
    does. *)
Fixpoint insert_by {A} (key : A -> nat) (a : A) (l : list A) : list A :=
  match l with
  | [] => [a]
  | b :: l' =>
      if (key a <=? key b)%nat then a :: b :: l'
      else b :: insert_by key a l'
  end.

Definition sorted {A} (key : A -> nat) (l : list A) : list A :=
  foldr (insert_by key) [] l.

(** ** [LeapServer]: the listener callbacks *)

Definition on_init : M unit :=
  LOG_v (Text "Initialized") "on_init" ;;;
  modify (set_t 0) ;;;
  modify (set_hand Leap_Hand) ;;;
  modify (set_fingers
            (list_to_map
               (map (fun i => (nth i FINGER_NAMES "", Leap_Finger))
                    (seq 0 5)))) ;;;
  modify (set_joint_names []) ;;;
  modify (fun w =>
            mkWorld (self_t w) None (self_hand w) (self_fingers w)
              (self_joint_names w) [] [] [] (log w) (stdout w)).

Definition on_connect : M unit := LOG_v (Text "Connected") "on_connect".
Definition on_disconnect : M unit :=
  LOG_v (Text "Disconnected") "on_disconnect".
Definition on_exit : M unit := LOG_v (Text "END") "on_exit".

Definition show_data (what : list string) : M unit :=
  (if bool_decide ("hand" ∈ what) then
     w <- get ;;
     let normal := palm_normal (self_hand w) in
     let direction := hand_direction (self_hand w) in
     let position := palm_position (self_hand w) in
     LOG_v (HandText (vpitch direction) (vx position)
                     (vyaw direction) (vy position)
                     (vroll normal) (vz position)) "show_data"
   else ret tt) ;;;
  for_each FINGER_NAMES
    (fun name _ =>
       if bool_decide (name ∈ what) then
         w <- get ;;
         finger <- lift (getitem (self_fingers w) name) ;;
         for_each (enumerate FINGER_BONES)
           (fun '(b, bone_name) _ =>
              let direction := bone_direction (bone finger b) in
              LOG_v (BoneText name bone_name (vpitch direction)) "show_data")
           tt
       else ret tt)
    tt.

(** [FINGER_NAMES[i]] and [FINGER_NAMES[-1]]. *)
Definition finger_name_at (i : nat) : result string :=
  match FINGER_NAMES !! i with
  | Some n => Ok n
  | None => Raise IndexError
  end.

Definition finger_name_last : result string :=
  match last FINGER_NAMES with
  | Some n => Ok n
  | None => Raise IndexError
  end.

(** [on_frame], the frame being what [controller.frame()] answers. *)
Definition on_frame (frame : Frame) : M unit :=
  match frame_hands frame with
  | [] => ret tt
  | hand :: _ =>
      modify (set_hand hand) ;;;
      let fingers := hand_fingers hand in
      match fingers with
      | [] => ret tt
      | _ =>
          for_each
            (enumerate (sorted (fun f => type_value (finger_type f)) fingers))
            (fun '(i, finger) _ =>
               selected_finger <-
                 lift (match finger_type finger with
                       | TYPE_THUMB => finger_name_at 0
                       | TYPE_PINKY => finger_name_last
                       | ty => finger_name_at (type_value ty)
                       end) ;;
               modify (fun w =>
                         set_fingers
                           (<[selected_finger := finger]> (self_fingers w))
                           w))
            tt
      end
  end ;;;
  show_data ["hand"].

(** ** [LeapServer.build_joint_state_msg] *)

(** The value of the list comprehension that fills [self.joint_names]. *)
Definition joint_names_comprehension : list string :=
  map (fun attr => "hand" +:+ "." +:+ attr) ORI_ATTRIBUTES ++
  flat_map
    (fun finger =>
       flat_map
         (fun bone_name =>
            map (fun ori => finger +:+ "." +:+ bone_name +:+ "." +:+ ori)
                ORI_ATTRIBUTES)
         FINGER_BONES)
    FINGER_NAMES.

Definition js_append_name (n : string) (m : JointState) : JointState :=
  mkJointState (js_header m) (name m ++ [n]) (position m).

Definition js_set_position (p : list R) (m : JointState) : JointState :=
  mkJointState (js_header m) (name m) p.

(** [now] is what [rospy.Time.now()] answers. *)
Definition build_joint_state_msg (now : Time) : M JointState :=
  let js_msg := mkJointState (mkHeader now "") [] [] in
  w <- get ;;
  (if decide (self_joint_names w = []) then
     modify (set_joint_names joint_names_comprehension) ;;;
     w <- get ;;
     LOG_v (JointsText (self_joint_names w)) "start_transmit"
   else ret tt) ;;;
  w <- get ;;
  let js_msg :=
    js_set_position (replicate (length (self_joint_names w)) 0%R) js_msg in
  (* First the hand... *)
  hand_done <-
    for_each (enumerate ORI_ATTRIBUTES)
      (fun '(i, attr) '(js_msg, pos) =>
         let js_msg := js_append_name ("hand." +:+ attr) js_msg in
         w <- get ;;
         let vector :=
           if String.eqb attr "roll" then palm_normal (self_hand w)
           else hand_direction (self_hand w) in
         v <- lift (getattr vector attr) ;;
         p <- lift (setitem (position js_msg) pos v) ;;
         ret (js_set_position p js_msg, S pos))
      (js_msg, 0%nat) ;;
  (* ...then the fingers *)
  let '(js_msg, pos) := hand_done in
  finger_list <-
    map_M (fun '(i, finger_name) =>
             w <- get ;;
             finger <- lift (getitem (self_fingers w) finger_name) ;;
             ret (i, finger_name, finger))
          (enumerate FINGER_NAMES) ;;
  fingers_done <-
    for_each finger_list
      (fun '(i, finger_name, finger) acc =>
         for_each
           (map (fun '(j, bone_name) => (j, bone_name, bone finger j))
                (enumerate FINGER_BONES))
           (fun '(j, bone_name, b) acc =>
              for_each (enumerate ORI_ATTRIBUTES)
                (fun '(k, attr) '(js_msg, pos) =>
                   let joint_name :=
                     finger_name +:+ "." +:+ bone_name +:+ "." +:+ attr in
                   joint_value <- lift (getattr (bone_direction b) attr) ;;
                   let js_msg := js_append_name joint_name js_msg in
                   p <- lift (setitem (position js_msg) pos joint_value) ;;
                   ret (js_set_position p js_msg, S pos))
                acc)
           acc)
      (js_msg, pos) ;;
  let '(js_msg, pos) := fingers_done in
  ret js_msg.

Definition setattr_point (p : Point) (attr : string) (val : R)
  : result Point :=
  if String.eqb attr "x" then Ok (mkPoint val (py p) (pz p))
  else if String.eqb attr "y" then Ok (mkPoint (px p) val (pz p))
  else if String.eqb attr "z" then Ok (mkPoint (px p) (py p) val)
  else Raise (AttributeError attr).

Definition ps_set_position (p : Point) (m : PoseStamped) : PoseStamped :=
  mkPoseStamped (ps_header m) (mkPose p (orientation (pose m))).

(** The message's quaternion out of [quaternion[0]] ... [quaternion[3]]. *)
Definition quaternion_of (q : R * R * R * R) : Quaternion :=
  let '(q0, q1, q2, q3) := q in mkQuaternion q0 q1 q2 q3.

Definition ps_set_orientation (q : R * R * R * R) (m : PoseStamped)
  : PoseStamped :=
  mkPoseStamped (ps_header m)
    (mkPose (pose_position (pose m)) (quaternion_of q)).

(** What the environment decides for one turn of the publish loop. *)
Inductive Stmt :=
| S_build_js | S_build_ps | S_twist | S_pub_js | S_pub_ps | S_sleep | S_incr.

Global Instance Stmt_eq_dec : EqDecision Stmt.
Proof. solve_decision. Defined.

(** The statements of the loop that stand outside the body of the [try]:
    the loop test [while not rospy.is_shutdown() and not quitting], when it
    does not end the loop on a shutdown request, and the two statements of
    the handler, [LOG.e(...)] and [quitting = True]. *)
Inductive Place :=
| P_test | P_log | P_quit.

Global Instance Place_eq_dec : EqDecision Place.
Proof. solve_decision. Defined.

Record Tick := mkTick {
  is_shutdown : bool;            (* rospy.is_shutdown() at the loop test *)
  frames : list Frame;           (* frames the SDK delivers before the body *)
  now_js : Time;                 (* rospy.Time.now() in the two builders *)
  now_ps : Time;
  fault : option (Stmt * exn);   (* an exception striking at a statement *)
  outside : option (Place * exn) (* one striking outside the [try] body *)
}.

Definition is_KeyboardInterrupt (e : exn) : bool :=
  match e with KeyboardInterrupt => true | _ => false end.

Definition is_Quit_or_KeyboardInterrupt (e : exn) : bool :=
  match e with
  | QuitMessageException _ | KeyboardInterrupt => true
  | _ => false
  end.

Section Server.

(** [tf.transformations.quaternion_from_euler], of the middleware: the four
    components in the order x, y, z, w. *)
Variable quaternion_from_euler : R -> R -> R -> R * R * R * R.

(** ** [LeapServer.build_pose_stamped_msg] *)

Definition build_pose_stamped_msg (now : Time) (test : bool)
  : M PoseStamped :=
  let ps_msg :=
    mkPoseStamped (mkHeader now FRAME_ID) (pose PoseStamped_new) in
  w <- get ;;
  let direction := hand_direction (self_hand w) in
  let position := palm_position (self_hand w) in
  let normal := palm_normal (self_hand w) in
  let roll := vroll normal in
  let pitch := vpitch normal in
  let yaw := vyaw direction in
  let quaternion := quaternion_from_euler roll pitch yaw in
  let ps_msg := ps_set_orientation quaternion ps_msg in
  ps_msg <-
    (if negb test then
       for_each (enumerate POS_ATTRIBUTES)
         (fun '(j, attr) ps_msg =>
            val <- lift (getattr position attr) ;;
            p <- lift (setattr_point (pose_position (pose ps_msg)) attr val) ;;
            ret (ps_set_position p ps_msg))
         ps_msg
     else
       generated <- test_pose ;;
       let '((x, y, z), (pitch, yaw, roll)) := generated in
       let ps_msg := ps_set_position (mkPoint x y z) ps_msg in
       let quaternion := quaternion_from_euler roll pitch yaw in
       ret (ps_set_orientation quaternion ps_msg)) ;;
  modify (push_stdout ps_msg) ;;;
  ret ps_msg.

(** ** [LeapServer.start_transmit] *)

(** A statement of the loop body, unless the turn's fault strikes there. *)
Definition at_stmt {A} (tk : Tick) (s : Stmt) (m : M A) : M A :=
  match fault tk with
  | Some (s', e) => if decide (s = s') then raise e else m
  | None => m
  end.

(** A statement outside the body of the [try], unless the turn's other
    fault strikes there. *)
Definition at_place {A} (tk : Tick) (p : Place) (m : M A) : M A :=
  match outside tk with
  | Some (p', e) => if decide (p = p') then raise e else m
  | None => m
  end.

(** The body of the [try]. *)
Definition iteration (tk : Tick) : M unit :=
  js_msg <- at_stmt tk S_build_js (build_joint_state_msg (now_js tk)) ;;
  ps_msg <- at_stmt tk S_build_ps (build_pose_stamped_msg (now_ps tk) true) ;;
  ts_msg <- at_stmt tk S_twist (ret TwistStamped_new) ;;
  at_stmt tk S_pub_js (modify (push_js js_msg)) ;;;
  at_stmt tk S_pub_ps (modify (push_ps ps_msg)) ;;;
  at_stmt tk S_sleep (ret tt) ;;;
  at_stmt tk S_incr (w <- get ;; modify (set_t (self_t w + 1 / 100)%R)).

(** The frames of a turn reach [on_frame] one by one. *)
Definition deliver (fs : list Frame) : M unit :=
  for_each fs (fun f _ => on_frame f) tt.

(** The [try] statement of one turn; it answers the new value of
    [quitting]. *)
Definition turn (tk : Tick) : M bool :=
  try_except (iteration tk ;;; ret false)
    is_KeyboardInterrupt
    (fun _ =>
       at_place tk P_log
         (LOG_e (Text "KeyboardInterrupt detected") "start_transmit") ;;;
       at_place tk P_quit (ret true)).

(** The [while] loop; each element of [env] answers one loop test, the one
    that finds [quitting] set included, and a loop that has used up [env]
    is still running.  An answer [True] of [is_shutdown] ends the loop
    before [quitting] is looked at. *)
Fixpoint publish_loop (env : list Tick) (quitting : bool) {struct env}
  : M unit :=
  match env with
  | [] => lift Pending
  | tk :: env' =>
      if is_shutdown tk then ret tt
      else
        at_place tk P_test
          (if quitting then ret tt
           else
             deliver (frames tk) ;;;
             quitting <- turn tk ;;
             publish_loop env' quitting)
  end.

Definition start_transmit (env : list Tick) : M unit :=
  publish_loop env false ;;;
  LOG_d (Text "Quit command sent to client") "main" ;;;
  raise (QuitMessageException "Quit message received from client").

(** ** [main]

    Adding the listener makes the SDK call [on_init], removing it
    [on_exit]. *)
Definition main (env : list Tick) : M unit :=
  on_init ;;;
  LOG_v (Text "Press ^C to quit...") "main" ;;;
  try_except (start_transmit env)
    is_Quit_or_KeyboardInterrupt
    (fun e =>
       match e with
       | QuitMessageException msg => LOG_e (Text msg) "main"
       | _ => LOG_e (Text "Interrupted by user") "main"
       end) ;;;
  on_exit.

(** ** The states of a running server *)

(** What can happen to the world once the listener is initialised: the SDK
    delivers a frame, the loop makes a turn (whole, or cut short by a
    fault), or one of the two builders is called. *)
Inductive step : World -> World -> Prop :=
| step_frame (f : Frame) (w : World) :
    step w (snd (on_frame f w))
| step_turn (tk : Tick) (w : World) :
    step w (snd (turn tk w))
| step_build_js (now : Time) (w : World) :
    step w (snd (build_joint_state_msg now w))
| step_build_ps (now : Time) (test : bool) (w : World) :
    step w (snd (build_pose_stamped_msg now test w)).

Definition reachable (w : World) : Prop :=
  exists w0 : World, rtc step (snd (on_init w0)) w.

End Server.

(** The five entries of [self.fingers] exist. *)
Definition fingers_ready (w : World) : Prop :=
  forall n : string, n ∈ FINGER_NAMES -> is_Some (self_fingers w !! n).

(** [self.joint_names] is still empty or holds the computed list. *)
Definition names_cached (w : World) : Prop :=
  self_joint_names w = [] \/ self_joint_names w = joint_names_comprehension.

Definition Inv (w : World) : Prop := fingers_ready w /\ names_cached w.

(** What [build_joint_state_msg] does to the world. *)
Definition cache_names (w : World) : World :=
  if decide (self_joint_names w = []) then
    push_log (mkLog INFO "start_transmit" (JointsText joint_names_comprehension))
             (set_joint_names joint_names_comprehension w)
  else w.

(** The three angles [build_joint_state_msg] reads from one bone. *)
Definition bone_angles (b : Bone) : list R :=
  [vroll (bone_direction b); vpitch (bone_direction b);
   vyaw (bone_direction b)].

(** The positions [build_joint_state_msg] writes, given the hand and the
    five fingers in the order of [FINGER_NAMES]. *)
Definition joint_values (h : Hand) (fs : list Finger) : list R :=
  [vroll (palm_normal h); vpitch (hand_direction h); vyaw (hand_direction h)]
  ++ flat_map
       (fun f => flat_map (fun j => bone_angles (bone f j)) (seq 0 4)) fs.

(** ** Relations between the world before and after a computation *)

(** A part of the world is as it was. *)
Definition same {B} (proj : World -> B) : relation World :=
  fun w w' => proj w' = proj w.

(** The log has only grown. *)
Definition log_grows : relation World :=
  fun w w' => exists l : list LogEntry, log w' = log w ++ l.

(** The log has grown by lines of the [INFO] level only. *)
Definition info_logged : relation World :=
  fun w w' =>
    exists l : list LogEntry,
      log w' = log w ++ l /\ Forall (fun entry => level entry = INFO) l.

(** The invariant is not lost. *)
Definition inv_kept : relation World := fun w w' => Inv w -> Inv w'.

(** A joint name list that is not empty is not touched. *)
Definition names_kept : relation World :=
  fun w w' =>
    self_joint_names w <> [] -> self_joint_names w' = self_joint_names w.

(** A computation relates every world to the world it leaves. *)
Definition preserves (rel : relation World) {A} (m : M A) : Prop :=
  forall w : World, rel w (snd (m w)).

(** A computation that always returns. *)
Definition succeeds {A} (m : M A) : Prop :=
  forall w : World, exists a : A, fst (m w) = Ok a.

(** A relation that holds across every update the running server makes to
    the world. *)
Class Stable (rel : relation World) : Prop := {
  stable_preorder :: PreOrder rel;
  stable_log : forall e w, rel w (push_log e w);
  stable_stdout : forall m w, rel w (push_stdout m w);
  stable_hand : forall h w, rel w (set_hand h w);
  stable_fingers :
    forall k f w, rel w (set_fingers (<[k:=f]> (self_fingers w)) w);
  stable_js : forall m w, rel w (push_js m w);
  stable_ps : forall m w, rel w (push_ps m w);
  stable_t : forall v w, rel w (set_t v w);
  stable_names : forall w, rel w (cache_names w)
}.

(** The log lines of a run that a keyboard interrupt ends. *)
Definition interrupt_detected : LogEntry :=
  mkLog ERROR "start_transmit" (Text "KeyboardInterrupt detected").
Definition quit_sent : LogEntry :=
  mkLog DEBUG "main" (Text "Quit command sent to client").
Definition quit_received : LogEntry :=
  mkLog ERROR "main" (Text "Quit message received from client").
Definition listener_end : LogEntry := mkLog INFO "on_exit" (Text "END").

(** The lines of [main] before the loop, and its line for an interrupt that
    comes out of [start_transmit]. *)
Definition initialized : LogEntry :=
  mkLog INFO "on_init" (Text "Initialized").
Definition prompt : LogEntry :=
  mkLog INFO "main" (Text "Press ^C to quit...").
Definition interrupted_by_user : LogEntry :=
  mkLog ERROR "main" (Text "Interrupted by user").

(** A turn of the loop during which nothing happens. *)
Definition quiet (tk : Tick) : Prop :=
  is_shutdown tk = false /\ fault tk = None /\ outside tk = None.

(** The formula of [tf.transformations.quaternion_from_euler] for its default
    axes, as one instance of the middleware's conversion. *)
Definition quaternion_from_euler_sxyz (ai aj ak : R) : R * R * R * R :=
  let ci := cos (ai / 2) in let si := sin (ai / 2) in
  let cj := cos (aj / 2) in let sj := sin (aj / 2) in
  let ck := cos (ak / 2) in let sk := sin (ak / 2) in
  (cj * (si * ck) - sj * (ci * sk),
   cj * (si * sk) + sj * (ci * ck),
   cj * (ci * sk) - sj * (si * ck),
   cj * (ci * ck) + sj * (si * sk))%R.

(** Sample inputs. *)
Definition blank_world : World :=
  mkWorld 0 None Leap_Hand ∅ [] [] [] [] [] [].

Definition started_world : World := snd (on_init blank_world).

Definition sample_hand : Hand :=
  mkHand (mkVector 10 200 (-30) 0 0 0)
         (mkVector 0 (-1) 0 (1 / 2) (1 / 4) (1 / 8))
         (mkVector 0 0 (-1) (1 / 3) (1 / 5) (1 / 7))
         [mkFinger TYPE_INDEX
            [mkBone (mkVector 0 0 (-1) (1 / 9) (1 / 10) (1 / 11))]].

Definition sample_frame : Frame := mkFrame [sample_hand].

(** The world after initialisation and one frame. *)
Definition tracking_world : World := snd (on_frame sample_frame started_world).

Definition quiet_tick : Tick := mkTick false [] 1%Z 2%Z None None.

Definition interrupted_tick : Tick :=
  mkTick false [] 3%Z 4%Z (Some (S_sleep, KeyboardInterrupt)) None.

(** A turn with a frame, interrupted while the second message is
    published. *)
Definition framed_interrupted_tick : Tick :=
  mkTick false [sample_frame] 3%Z 4%Z (Some (S_pub_ps, KeyboardInterrupt))
    None.

(** Turns in which a keyboard interrupt strikes outside the [try] body: at
    the loop test, and in the handler of an interrupted body, before its
    log line and after it. *)
Definition test_interrupted_tick : Tick :=
  mkTick false [] 5%Z 6%Z None (Some (P_test, KeyboardInterrupt)).

Definition log_interrupted_tick : Tick :=
  mkTick false [] 3%Z 4%Z (Some (S_sleep, KeyboardInterrupt))
    (Some (P_log, KeyboardInterrupt)).

Definition quit_interrupted_tick : Tick :=
  mkTick false [] 3%Z 4%Z (Some (S_sleep, KeyboardInterrupt))
    (Some (P_quit, KeyboardInterrupt)).

(** A turn in which publishing fails. *)
Definition failing_tick : Tick :=
  mkTick false [] 7%Z 8%Z (Some (S_pub_js, ExternalError "publish")) None.

(** The blank world at a stored time. *)
Definition at_time (t : R) : World := set_t t blank_world.

(** The world with the sample hand, at a stored time of the pitch phase. *)
Definition pitching_world : World := set_t (6 * PI + PI / 3) tracking_world.

(** ** More of the listener: what a frame stores *)

Global Instance FingerType_eq_dec : EqDecision FingerType.
Proof. solve_decision. Defined.

(** The key of [self.fingers] a finger of a type is stored under,
    [FINGER_NAMES[finger.type()]]. *)
Definition finger_slot (ty : FingerType) : string :=
  nth (type_value ty) FINGER_NAMES "".

(** The loop of [on_frame] over the fingers, as updates of the world. *)
Definition store_fingers (fs : list Finger) (w : World) : World :=
  foldl (fun w f =>
           set_fingers (<[finger_slot (finger_type f) := f]> (self_fingers w))
                       w)
        w fs.

(** The line [show_data] logs for the hand. *)
Definition hand_line (h : Hand) : LogEntry :=
  mkLog INFO "show_data"
    (HandText (vpitch (hand_direction h)) (vx (palm_position h))
              (vyaw (hand_direction h)) (vy (palm_position h))
              (vroll (palm_normal h)) (vz (palm_position h))).

(** The three channels together, and the tracking data together. *)
Definition pubs (w : World)
  : list JointState * list PoseStamped * list TwistStamped :=
  (js_pub w, ps_pub w, ts_pub w).

Definition tracking (w : World) : Hand * gmap string Finger :=
  (self_hand w, self_fingers w).

(** * Properties *)

(** ** The remainder of floats *)

Lemma py_mod_range (a b : R) :
  (0 < b)%R -> (0 <= py_mod a b < b)%R.
Proof.
  intros Hb. unfold py_mod.
  destruct (base_Int_part (a / b)) as [Hlo Hhi].
  assert (Ha : (a = a / b * b)%R) by (field; lra).
  set (q := IZR (Int_part (a / b))) in *.
  set (r := (a / b)%R) in *.
  clearbody q r. subst a. split; nra.
Qed.

Lemma py_mod_period (a b : R) :
  (b <> 0)%R -> py_mod (a + b) b = py_mod a b.
Proof.
  intros Hb. unfold py_mod.
  assert (Hq : Int_part ((a + b) / b) = (Int_part (a / b) + 1)%Z).
  { symmetry. apply Int_part_spec.
    destruct (base_Int_part (a / b)) as [Hlo Hhi].
    replace ((a + b) / b)%R with (a / b + 1)%R by (field; lra).
    rewrite plus_IZR. split; lra. }
  rewrite Hq, plus_IZR. ring.
Qed.

Lemma py_mod_0 (b : R) : py_mod 0 b = 0%R.
Proof.
  unfold py_mod. replace (0 / b)%R with 0%R by (unfold Rdiv; ring).
  replace (Int_part 0) with 0%Z; [ring|].
  apply Int_part_spec. simpl. lra.
Qed.

(** The remainder of [b * k + m] is [m], for [m] between zero and [b]. *)
Lemma py_mod_decompose (b m : R) (k : Z) :
  (0 < b)%R -> (0 <= m < b)%R -> py_mod (b * IZR k + m) b = m.
Proof.
  intros Hb [Hlo Hhi]. unfold py_mod.
  assert (Hq : Int_part ((b * IZR k + m) / b) = k).
  { symmetry. apply Int_part_spec.
    replace ((b * IZR k + m) / b)%R with (IZR k + m / b)%R by (field; lra).
    assert (0 <= m / b < 1)%R.
    { split; [apply Rmult_le_pos; [lra|left; apply Rinv_0_lt_compat; lra]|].
      apply (Rmult_lt_reg_r b); [lra|].
      replace (m / b * b)%R with m by (field; lra). lra. }
    lra. }
  rewrite Hq. ring.
Qed.

Lemma py_mod_small (a b : R) : (0 <= a < b)%R -> py_mod a b = a.
Proof.
  intros Ha. replace a with (b * IZR 0 + a)%R at 1 by ring.
  apply py_mod_decompose; lra.
Qed.

Lemma Int_part_nonneg (r : R) : (0 <= r)%R -> (0 <= Int_part r)%Z.
Proof.
  intros Hr. destruct (base_Int_part r) as [_ Hhi].
  assert (H : (-1 < Int_part r)%Z) by (apply lt_IZR; lra). lia.
Qed.

(** A float that is not negative is a whole number of times [b], and its
    remainder. *)
Lemma py_mod_whole_turns (a b : R) :
  (0 < b)%R -> (0 <= a)%R ->
  exists n : nat, a = (b * INR n + py_mod a b)%R.
Proof.
  intros Hb Ha. exists (Z.to_nat (Int_part (a / b))).
  rewrite INR_IZR_INZ, Z2Nat.id.
  - unfold py_mod. ring.
  - apply Int_part_nonneg. apply Rmult_le_pos; [lra|].
    left; apply Rinv_0_lt_compat; lra.
Qed.

Lemma sin_PI2_turns (k : nat) : sin (PI / 2 + 2 * INR k * PI) = 1%R.
Proof. rewrite sin_period. exact sin_PI2. Qed.

Lemma cos_PI_turns (k : nat) : cos (PI + 2 * INR k * PI) = (-1)%R.
Proof. rewrite cos_period. exact cos_PI. Qed.

(** ** The test generator *)

(** [test_pose] without the monad. *)
Lemma test_pose_unfold (w : World) :
  test_pose w =
  let t := self_t w in
  let delta := (sin t * 1000)%R in
  let alpha := (cos t * PI * 2)%R in
  let m := py_mod t (PI * 12) in
  if Rlt_dec m (PI * 2) then (Ok ((delta, 0, 0), (0, 0, 0))%R, w)
  else if Rlt_dec m (PI * 4) then (Ok ((0, delta, 0), (0, 0, 0))%R, w)
  else if Rlt_dec m (PI * 6) then (Ok ((0, 0, delta), (0, 0, 0))%R, w)
  else if Rlt_dec m (PI * 8) then (Ok ((0, 0, 0), (alpha, 0, 0))%R, w)
  else if Rlt_dec m (PI * 10) then (Ok ((0, 0, 0), (0, alpha, 0))%R, w)
  else if Rlt_dec m (PI * 12) then (Ok ((0, 0, 0), (0, 0, alpha))%R, w)
  else (Ok ((0, 0, 0), (0, 0, 0))%R, set_t 0 w).
Proof.
  unfold test_pose, bind, get. cbn zeta.
  repeat (destruct (Rlt_dec _ _); [reflexivity|]). reflexivity.
Qed.

Ltac phase_cases :=
  repeat match goal with
         | |- context [Rlt_dec ?a ?b] => destruct (Rlt_dec a b)
         end.

(** The remainder is below [12 * PI], so one of the six phases is taken and
    the world stays as it is. *)
Lemma test_pose_Ok (w : World) :
  exists v, test_pose w = (Ok v, w).
Proof.
  pose proof PI_RGT_0 as Hpi.
  assert (Hm : (0 <= py_mod (self_t w) (PI * 12) < PI * 12)%R)
    by (apply py_mod_range; lra).
  rewrite test_pose_unfold. cbn zeta.
  phase_cases; try (eexists; reflexivity). exfalso; lra.
Qed.

Lemma test_pose_world (w : World) : snd (test_pose w) = w.
Proof. destruct (test_pose_Ok w) as [v ->]. reflexivity. Qed.

(** C1. For a stored time [t >= 0]: [t] is a whole number [n] of periods
    [12 * PI] and a rest [m] in [0, 12 * PI); whenever [t] is written so,
    the interval of width [2 * PI] that holds [m] selects the phase: on
    [0, 2 PI) only x is driven, with 1000 sin t; on [2 PI, 4 PI) only y; on
    [4 PI, 6 PI) only z; on [6 PI, 8 PI) only pitch, with 2 PI cos t; on
    [8 PI, 10 PI) only yaw; on [10 PI, 12 PI) only roll; the five others of
    the returned pair ((x, y, z), (pitch, yaw, roll)) are zero; and
    [12 * PI] later the generator returns the same pair. *)
Theorem test_pose_phases (w : World) :
  (0 <= self_t w)%R ->
  let t := self_t w in
  let delta := (1000 * sin t)%R in
  let alpha := (2 * PI * cos t)%R in
  (exists (n : nat) (m : R),
     t = (12 * PI * INR n + m)%R /\ (0 <= m < 12 * PI)%R) /\
  (forall (n : nat) (m : R),
     t = (12 * PI * INR n + m)%R ->
     ((0 * PI <= m < 2 * PI)%R ->
        fst (test_pose w) = Ok ((delta, 0, 0), (0, 0, 0))%R) /\
     ((2 * PI <= m < 4 * PI)%R ->
        fst (test_pose w) = Ok ((0, delta, 0), (0, 0, 0))%R) /\
     ((4 * PI <= m < 6 * PI)%R ->
        fst (test_pose w) = Ok ((0, 0, delta), (0, 0, 0))%R) /\
     ((6 * PI <= m < 8 * PI)%R ->
        fst (test_pose w) = Ok ((0, 0, 0), (alpha, 0, 0))%R) /\
     ((8 * PI <= m < 10 * PI)%R ->
        fst (test_pose w) = Ok ((0, 0, 0), (0, alpha, 0))%R) /\
     ((10 * PI <= m < 12 * PI)%R ->
        fst (test_pose w) = Ok ((0, 0, 0), (0, 0, alpha))%R)) /\
  fst (test_pose (set_t (t + 12 * PI) w)) = fst (test_pose w).
Proof.
  intros Ht t delta alpha.
  pose proof PI_RGT_0 as Hpi.
  assert (Hd : (sin t * 1000)%R = delta) by (unfold delta; ring).
  assert (Ha : (cos t * PI * 2)%R = alpha) by (unfold alpha; ring).
  assert (H12 : (PI * 12)%R = (12 * PI)%R) by ring.
  split; [|split].
  - destruct (py_mod_whole_turns t (12 * PI)) as [n Hn]; [lra|exact Ht|].
    exists n, (py_mod t (12 * PI)). split; [exact Hn|].
    apply py_mod_range; lra.
  - intros n m Hn.
    assert (Hm : (0 <= m < 12 * PI)%R -> py_mod t (12 * PI) = m).
    { intros Hin. rewrite Hn, INR_IZR_INZ. apply py_mod_decompose; lra. }
    repeat split; intros Hin;
      (rewrite test_pose_unfold; cbn zeta; rewrite H12; fold t;
       rewrite Hm, Hd, Ha by lra;
       phase_cases; try reflexivity; exfalso; lra).
  - rewrite !test_pose_unfold; cbn zeta.
    cbn [self_t set_t]. fold t. rewrite H12.
    rewrite py_mod_period by lra.
    replace (t + 12 * PI)%R with (t + 2 * INR 6 * PI)%R by (simpl; ring).
    rewrite sin_period, cos_period.
    assert (Hm : (0 <= py_mod t (12 * PI) < 12 * PI)%R)
      by (apply py_mod_range; lra).
    phase_cases; try reflexivity; exfalso; lra.
Qed.

(** The six phases in turn, each at a time where the driven value is not
    zero, and the first phase again in the second period. *)
Lemma test_pose_phases_witness :
  fst (test_pose (at_time (PI / 2))) = Ok ((1000, 0, 0), (0, 0, 0))%R /\
  fst (test_pose (at_time (5 * PI / 2))) = Ok ((0, 1000, 0), (0, 0, 0))%R /\
  fst (test_pose (at_time (9 * PI / 2))) = Ok ((0, 0, 1000), (0, 0, 0))%R /\
  fst (test_pose (at_time (7 * PI))) = Ok ((0, 0, 0), (- (2 * PI), 0, 0))%R /\
  fst (test_pose (at_time (9 * PI))) = Ok ((0, 0, 0), (0, - (2 * PI), 0))%R /\
  fst (test_pose (at_time (11 * PI))) = Ok ((0, 0, 0), (0, 0, - (2 * PI)))%R /\
  fst (test_pose (at_time (12 * PI + PI / 2))) = Ok ((1000, 0, 0), (0, 0, 0))%R.
Proof.
  pose proof PI_RGT_0 as Hpi.
  assert (Hs : forall k : nat, (1000 * sin (PI / 2 + 2 * INR k * PI))%R = 1000%R)
    by (intros k; rewrite sin_PI2_turns; ring).
  assert (Hc : forall k : nat,
             (2 * PI * cos (PI + 2 * INR k * PI))%R = (- (2 * PI))%R)
    by (intros k; rewrite cos_PI_turns; ring).
  repeat split.
  - rewrite <- (Hs 0%nat).
    replace (PI / 2 + 2 * INR 0 * PI)%R with (PI / 2)%R by (simpl; ring).
    assert (H0 : (0 <= self_t (at_time (PI / 2)))%R) by (simpl; lra).
    destruct (test_pose_phases _ H0) as (_ & Hph & _).
    destruct (Hph 0%nat (PI / 2)%R) as (H & _); [simpl; ring|].
    apply H. lra.
  - rewrite <- (Hs 1%nat).
    replace (PI / 2 + 2 * INR 1 * PI)%R with (5 * PI / 2)%R by (simpl; field).
    assert (H0 : (0 <= self_t (at_time (5 * PI / 2)))%R) by (simpl; lra).
    destruct (test_pose_phases _ H0) as (_ & Hph & _).
    destruct (Hph 0%nat (5 * PI / 2)%R) as (_ & H & _); [simpl; ring|].
    apply H. lra.
  - rewrite <- (Hs 2%nat).
    replace (PI / 2 + 2 * INR 2 * PI)%R with (9 * PI / 2)%R by (simpl; field).
    assert (H0 : (0 <= self_t (at_time (9 * PI / 2)))%R) by (simpl; lra).
    destruct (test_pose_phases _ H0) as (_ & Hph & _).
    destruct (Hph 0%nat (9 * PI / 2)%R) as (_ & _ & H & _); [simpl; ring|].
    apply H. lra.
  - rewrite <- (Hc 3%nat).
    replace (PI + 2 * INR 3 * PI)%R with (7 * PI)%R by (simpl; ring).
    assert (H0 : (0 <= self_t (at_time (7 * PI)))%R) by (simpl; lra).
    destruct (test_pose_phases _ H0) as (_ & Hph & _).
    destruct (Hph 0%nat (7 * PI)%R) as (_ & _ & _ & H & _); [simpl; ring|].
    apply H. lra.
  - rewrite <- (Hc 4%nat).
    replace (PI + 2 * INR 4 * PI)%R with (9 * PI)%R by (simpl; ring).
    assert (H0 : (0 <= self_t (at_time (9 * PI)))%R) by (simpl; lra).
    destruct (test_pose_phases _ H0) as (_ & Hph & _).
    destruct (Hph 0%nat (9 * PI)%R) as (_ & _ & _ & _ & H & _); [simpl; ring|].
    apply H. lra.
  - rewrite <- (Hc 5%nat).
    replace (PI + 2 * INR 5 * PI)%R with (11 * PI)%R by (simpl; ring).
    assert (H0 : (0 <= self_t (at_time (11 * PI)))%R) by (simpl; lra).
    destruct (test_pose_phases _ H0) as (_ & Hph & _).
    destruct (Hph 0%nat (11 * PI)%R) as (_ & _ & _ & _ & _ & H); [simpl; ring|].
    apply H. lra.
  - rewrite <- (Hs 6%nat).
    replace (PI / 2 + 2 * INR 6 * PI)%R with (12 * PI + PI / 2)%R
      by (simpl; field).
    assert (H0 : (0 <= self_t (at_time (12 * PI + PI / 2)))%R) by (simpl; lra).
    destruct (test_pose_phases _ H0) as (_ & Hph & _).
    destruct (Hph 1%nat (PI / 2)%R) as (H & _); [simpl; ring|].
    apply H. lra.
Defined.

(** C2. Once the stored time has reached [12 * PI], a call of [test_pose]
    leaves it where it is: the branch that resets it is never taken, and
    the stored time is not zero afterwards. *)
Theorem test_pose_no_reset (w : World) :
  (12 * PI <= self_t w)%R ->
  self_t (snd (test_pose w)) = self_t w /\
  self_t (snd (test_pose w)) <> 0%R.
Proof.
  intros Ht. rewrite test_pose_world. split; [reflexivity|].
  pose proof PI_RGT_0. lra.
Qed.

(** The stored time [12 * PI] is still stored after the call. *)
Lemma test_pose_no_reset_witness :
  self_t (snd (test_pose (set_t (12 * PI) blank_world))) = (12 * PI)%R.
Proof.
  assert (H : (12 * PI <= self_t (set_t (12 * PI) blank_world))%R)
    by (simpl; lra).
  exact (proj1 (test_pose_no_reset _ H)).
Defined.

(** ** Running the monad *)

Lemma bind_get {B} (k : World -> M B) (w : World) : bind get k w = k w w.
Proof. reflexivity. Qed.

Lemma bind_modify {B} (f : World -> World) (k : unit -> M B) (w : World) :
  bind (modify f) k w = k tt (f w).
Proof. reflexivity. Qed.

Lemma bind_Ok {A B} (m : M A) (k : A -> M B) (w w' : World) (a : A) :
  m w = (Ok a, w') -> bind m k w = k a w'.
Proof. intros H. unfold bind. rewrite H. reflexivity. Qed.

Lemma bind_Raise {A B} (m : M A) (k : A -> M B) (w w' : World) (e : exn) :
  m w = (Raise e, w') -> bind m k w = (Raise e, w').
Proof. intros H. unfold bind. rewrite H. reflexivity. Qed.

(** ** The relations are preorders *)

Global Instance same_preorder {B} (proj : World -> B) : PreOrder (same proj).
Proof.
  split.
  - intros w. reflexivity.
  - intros w1 w2 w3 H12 H23. unfold same in *. congruence.
Qed.

Global Instance log_grows_preorder : PreOrder log_grows.
Proof.
  split.
  - intros w. exists []. symmetry. apply app_nil_r.
  - intros w1 w2 w3 [l1 H1] [l2 H2]. exists (l1 ++ l2).
    rewrite H2, H1. symmetry. apply app_assoc.
Qed.

Global Instance info_logged_preorder : PreOrder info_logged.
Proof.
  split.
  - intros w. exists []. split; [symmetry; apply app_nil_r|constructor].
  - intros w1 w2 w3 (l1 & H1 & Hl1) (l2 & H2 & Hl2). exists (l1 ++ l2).
    split; [rewrite H2, H1; symmetry; apply app_assoc|].
    apply Forall_app. split; assumption.
Qed.

Global Instance inv_kept_preorder : PreOrder inv_kept.
Proof.
  split.
  - intros w H. exact H.
  - intros w1 w2 w3 H12 H23 H. apply H23, H12, H.
Qed.

Global Instance names_kept_preorder : PreOrder names_kept.
Proof.
  split.
  - intros w _. reflexivity.
  - intros w1 w2 w3 H12 H23 H. unfold names_kept in *.
    rewrite H23; rewrite H12; auto.
Qed.

(** ** Structural rules for [preserves] and [succeeds] *)

Section Rules.
Context (rel : relation World) `{!PreOrder rel}.

Lemma preserves_ret {A} (a : A) : preserves rel (ret a).
Proof. intros w. reflexivity. Qed.

Lemma preserves_raise {A} (e : exn) : preserves rel (@raise A e).
Proof. intros w. reflexivity. Qed.

Lemma preserves_lift {A} (r : result A) : preserves rel (lift r).
Proof. intros w. reflexivity. Qed.

Lemma preserves_get : preserves rel get.
Proof. intros w. reflexivity. Qed.

Lemma preserves_modify (f : World -> World) :
  (forall w, rel w (f w)) -> preserves rel (modify f).
Proof. intros H w. apply H. Qed.

Lemma preserves_bind {A B} (m : M A) (k : A -> M B) :
  preserves rel m -> (forall a, preserves rel (k a)) ->
  preserves rel (bind m k).
Proof.
  intros Hm Hk w. unfold bind. specialize (Hm w).
  destruct (m w) as [[a|e|] w']; cbn in *; try exact Hm.
  etransitivity; [exact Hm|apply Hk].
Qed.

Lemma preserves_try_except {A} (m : M A) (c : exn -> bool)
      (h : exn -> M A) :
  preserves rel m -> (forall e, preserves rel (h e)) ->
  preserves rel (try_except m c h).
Proof.
  intros Hm Hh w. unfold try_except. specialize (Hm w).
  destruct (m w) as [[a|e|] w']; cbn in *; try exact Hm.
  destruct (c e); [|exact Hm].
  etransitivity; [exact Hm|apply Hh].
Qed.

Lemma preserves_for_each {A S} (l : list A) (body : A -> S -> M S) :
  (forall a s, preserves rel (body a s)) ->
  forall s, preserves rel (for_each l body s).
Proof.
  intros Hb. induction l as [|a l IH]; intros s; cbn [for_each].
  - apply preserves_ret.
  - apply preserves_bind; [apply Hb|apply IH].
Qed.

Lemma preserves_map_M {A B} (f : A -> M B) (l : list A) :
  (forall a, preserves rel (f a)) -> preserves rel (map_M f l).
Proof.
  intros Hf. induction l as [|a l IH]; cbn [map_M].
  - apply preserves_ret.
  - apply preserves_bind; [apply Hf|]. intros b.
    apply preserves_bind; [apply IH|]. intros bs. apply preserves_ret.
Qed.
End Rules.

Lemma succeeds_ret {A} (a : A) : succeeds (ret a).
Proof. intros w. exists a. reflexivity. Qed.

Lemma succeeds_get : succeeds get.
Proof. intros w. exists w. reflexivity. Qed.

Lemma succeeds_modify (f : World -> World) : succeeds (modify f).
Proof. intros w. exists tt. reflexivity. Qed.

Lemma succeeds_lift {A} (a : A) : succeeds (lift (Ok a)).
Proof. intros w. exists a. reflexivity. Qed.

Lemma succeeds_bind {A B} (m : M A) (k : A -> M B) :
  succeeds m -> (forall a, succeeds (k a)) -> succeeds (bind m k).
Proof.
  intros Hm Hk w. unfold bind. destruct (Hm w) as [a Ha].
  destruct (m w) as [r w']. cbn in Ha. subst r. apply Hk.
Qed.

Lemma succeeds_for_each {A S} (l : list A) (body : A -> S -> M S) :
  (forall a s, succeeds (body a s)) -> forall s, succeeds (for_each l body s).
Proof.
  intros Hb. induction l as [|a l IH]; intros s; cbn [for_each].
  - apply succeeds_ret.
  - apply succeeds_bind; [apply Hb|apply IH].
Qed.

(** One step of a structural proof: the rule for the head of the
    computation, a case split where the computation branches. *)
Ltac structural_step :=
  match goal with
  | |- preserves _ (bind _ _) => apply preserves_bind; [apply _| |intros ?]
  | |- preserves _ (ret _) => apply preserves_ret; apply _
  | |- preserves _ (raise _) => apply preserves_raise; apply _
  | |- preserves _ (lift _) => apply preserves_lift; apply _
  | |- preserves _ get => apply preserves_get; apply _
  | |- preserves _ (for_each _ _ _) => apply preserves_for_each; [apply _|intros ? ?]
  | |- preserves _ (map_M _ _) => apply preserves_map_M; [apply _|intros ?]
  | |- preserves _ (try_except _ _ _) =>
      apply preserves_try_except; [apply _| |intros ?]
  | |- preserves _ (LOG_v _ _) => unfold LOG_v
  | |- preserves _ (LOG_d _ _) => unfold LOG_d
  | |- preserves _ (LOG_e _ _) => unfold LOG_e
  | |- preserves _ (modify _) => apply preserves_modify; intros ?
  | |- preserves _ (match ?x with _ => _ end) => destruct x
  | |- preserves _ ((match ?x with _ => _ end) _) => destruct x
  | |- preserves _ ((match ?x with _ => _ end) _ _) => destruct x
  | |- succeeds (bind _ _) => apply succeeds_bind; [|intros ?]
  | |- succeeds (ret _) => apply succeeds_ret
  | |- succeeds get => apply succeeds_get
  | |- succeeds (modify _) => apply succeeds_modify
  | |- succeeds (lift (Ok _)) => apply succeeds_lift
  | |- succeeds (for_each _ _ _) => apply succeeds_for_each; intros ? ?
  | |- succeeds (LOG_v _ _) => apply succeeds_modify
  | |- succeeds (match ?x with _ => _ end) => destruct x
  | |- succeeds ((match ?x with _ => _ end) _) => destruct x
  | |- succeeds ((match ?x with _ => _ end) _ _) => destruct x
  end.

Create HintDb frame.

(** The updates a stable relation holds across. *)
Ltac setter :=
  solve [ apply stable_log | apply stable_stdout | apply stable_hand
        | apply stable_fingers | apply stable_js | apply stable_ps
        | apply stable_t | apply stable_names ].

Ltac structural := repeat structural_step; try setter; auto with frame.


(** ** What the setters leave alone *)

Lemma log_grows_same (w w' : World) : log w' = log w -> log_grows w w'.
Proof. intros H. exists []. rewrite H. symmetry. apply app_nil_r. Qed.

Lemma log_grows_push (e : LogEntry) (w : World) : log_grows w (push_log e w).
Proof. exists [e]. reflexivity. Qed.

Lemma inv_kept_same (w w' : World) :
  self_fingers w' = self_fingers w ->
  self_joint_names w' = self_joint_names w ->
  inv_kept w w'.
Proof.
  intros Hf Hn [Hr Hc]. split.
  - intros n Hin. rewrite Hf. apply Hr, Hin.
  - unfold names_cached. rewrite Hn. exact Hc.
Qed.

Lemma names_kept_same (w w' : World) :
  self_joint_names w' = self_joint_names w -> names_kept w w'.
Proof. intros H _. exact H. Qed.

Lemma info_logged_same (w w' : World) : log w' = log w -> info_logged w w'.
Proof.
  intros H. exists []. split; [rewrite H; symmetry; apply app_nil_r|].
  constructor.
Qed.

Lemma info_logged_push (e : LogEntry) (w : World) :
  level e = INFO -> info_logged w (push_log e w).
Proof. intros H. exists [e]. split; [reflexivity|]. repeat constructor. exact H. Qed.

#[export] Hint Extern 1 (info_logged _ _) =>
  apply info_logged_same; reflexivity : frame.
#[export] Hint Extern 1 (info_logged _ (push_log _ _)) =>
  apply info_logged_push; reflexivity : frame.
#[export] Hint Resolve log_grows_push : frame.
#[export] Hint Extern 1 (log_grows _ _) =>
  apply log_grows_same; reflexivity : frame.
#[export] Hint Extern 1 (inv_kept _ _) =>
  apply inv_kept_same; reflexivity : frame.
#[export] Hint Extern 1 (names_kept _ _) =>
  apply names_kept_same; reflexivity : frame.
#[export] Hint Extern 1 (same _ _ _) => reflexivity : frame.

(** ** [test_pose] and [build_pose_stamped_msg] *)

Lemma test_pose_preserves (rel : relation World) `{!PreOrder rel} :
  preserves rel test_pose.
Proof. intros w. rewrite test_pose_world. reflexivity. Qed.

(** With [test=False] the message is made of the hand. *)
Lemma build_pose_stamped_msg_live qfe (now : Time) (w : World) :
  let h := self_hand w in
  let msg :=
    mkPoseStamped (mkHeader now FRAME_ID)
      (mkPose
         (mkPoint (vx (palm_position h)) (vy (palm_position h))
                  (vz (palm_position h)))
         (quaternion_of
            (qfe (vroll (palm_normal h)) (vpitch (palm_normal h))
                 (vyaw (hand_direction h))))) in
  build_pose_stamped_msg qfe now false w = (Ok msg, push_stdout msg w).
Proof. reflexivity. Qed.

(** With [test=True] the message is made of what [test_pose] returns. *)
Lemma build_pose_stamped_msg_test qfe (now : Time) (w : World) x y z p yw r :
  fst (test_pose w) = Ok ((x, y, z), (p, yw, r)) ->
  let msg :=
    mkPoseStamped (mkHeader now FRAME_ID)
      (mkPose (mkPoint x y z) (quaternion_of (qfe r p yw))) in
  build_pose_stamped_msg qfe now true w = (Ok msg, push_stdout msg w).
Proof.
  intros Hv msg.
  assert (Ht : test_pose w = (Ok ((x, y, z), (p, yw, r)), w)).
  { destruct (test_pose_Ok w) as [v Hw]. rewrite Hw in Hv |- *.
    cbn in Hv. congruence. }
  unfold build_pose_stamped_msg. rewrite bind_get. cbn [negb].
  rewrite (bind_Ok _ _ w w
             (ps_set_orientation (qfe r p yw)
                (ps_set_position (mkPoint x y z)
                   (ps_set_orientation
                      (qfe (vroll (palm_normal (self_hand w)))
                           (vpitch (palm_normal (self_hand w)))
                           (vyaw (hand_direction (self_hand w))))
                      (mkPoseStamped (mkHeader now FRAME_ID)
                         (pose PoseStamped_new)))))).
  - reflexivity.
  - rewrite (bind_Ok _ _ _ _ _ Ht). reflexivity.
Qed.

Lemma build_pose_stamped_msg_test_Ok qfe (now : Time) (w : World) :
  exists msg,
    build_pose_stamped_msg qfe now true w = (Ok msg, push_stdout msg w).
Proof.
  destruct (test_pose_Ok w) as [[[[x y] z] [[p yw] r]] Hw].
  eexists. apply build_pose_stamped_msg_test with (x := x) (y := y) (z := z)
    (p := p) (yw := yw) (r := r).
  rewrite Hw. reflexivity.
Qed.

(** ** [build_joint_state_msg] *)

Lemma cache_names_names (w : World) :
  names_cached w -> self_joint_names (cache_names w) = joint_names_comprehension.
Proof.
  intros [H|H]; unfold cache_names; rewrite H.
  - reflexivity.
  - destruct (decide _) as [E|_]; [discriminate E|exact H].
Qed.

Lemma cache_names_nonempty (w : World) : self_joint_names (cache_names w) <> [].
Proof.
  unfold cache_names. destruct (decide _) as [E|E]; [discriminate|exact E].
Qed.

Lemma cache_names_id (w : World) :
  self_joint_names w <> [] -> cache_names w = w.
Proof.
  intros H. unfold cache_names. destruct (decide _); [contradiction|reflexivity].
Qed.

Lemma cache_names_fingers (w : World) :
  self_fingers (cache_names w) = self_fingers w.
Proof. unfold cache_names. destruct (decide _); reflexivity. Qed.

Lemma cache_names_t (w : World) : self_t (cache_names w) = self_t w.
Proof. unfold cache_names. destruct (decide _); reflexivity. Qed.

Lemma cache_names_js_pub (w : World) : js_pub (cache_names w) = js_pub w.
Proof. unfold cache_names. destruct (decide _); reflexivity. Qed.

Lemma cache_names_ps_pub (w : World) : ps_pub (cache_names w) = ps_pub w.
Proof. unfold cache_names. destruct (decide _); reflexivity. Qed.

Lemma cache_names_ts_pub (w : World) : ts_pub (cache_names w) = ts_pub w.
Proof. unfold cache_names. destruct (decide _); reflexivity. Qed.

Lemma cache_names_log (w : World) : log_grows w (cache_names w).
Proof.
  unfold cache_names. destruct (decide _); [eexists; reflexivity|reflexivity].
Qed.

Lemma cache_names_inv (w : World) : Inv w -> Inv (cache_names w).
Proof.
  intros [Hr Hc]. split.
  - intros n Hin. rewrite cache_names_fingers. apply Hr, Hin.
  - right. apply cache_names_names, Hc.
Qed.

(** The part of the world a computation returns is the part its first half
    left, when the second half does not touch the world. *)
Lemma snd_bind_same {A B} (m : M A) (k : A -> M B) (w : World) :
  (forall a, preserves (same (fun w : World => w)) (k a)) -> snd (bind m k w) = snd (m w).
Proof.
  intros Hk. unfold bind. destruct (m w) as [[a|e|] w']; try reflexivity.
  apply (Hk a w').
Qed.

(** Whatever it returns, the builder leaves the world of [cache_names]. *)
Lemma build_joint_state_msg_world (now : Time) (w : World) :
  snd (build_joint_state_msg now w) = cache_names w.
Proof.
  unfold build_joint_state_msg. rewrite bind_get.
  rewrite snd_bind_same.
  - unfold cache_names. destruct (decide _); reflexivity.
  - intros _. structural.
Qed.

Lemma finger_list_Ok (w : World) (f0 f1 f2 f3 f4 : Finger) :
  self_fingers w !! "thumb" = Some f0 ->
  self_fingers w !! "index" = Some f1 ->
  self_fingers w !! "middle" = Some f2 ->
  self_fingers w !! "ring" = Some f3 ->
  self_fingers w !! "pinky" = Some f4 ->
  map_M (fun '(i, finger_name) =>
           w <- get ;;
           finger <- lift (getitem (self_fingers w) finger_name) ;;
           ret (i, finger_name, finger))
        (enumerate FINGER_NAMES) w
  = (Ok [(0, "thumb", f0); (1, "index", f1); (2, "middle", f2);
         (3, "ring", f3); (4, "pinky", f4)]%nat, w).
Proof.
  intros H0 H1 H2 H3 H4.
  cbv [enumerate FINGER_NAMES imap compose map_M bind get lift ret getitem].
  rewrite H0; cbv beta iota. rewrite H1; cbv beta iota.
  rewrite H2; cbv beta iota. rewrite H3; cbv beta iota.
  rewrite H4. reflexivity.
Qed.

(** Runs the first half of a [bind] whose value the machine can compute. *)
Ltac run_head :=
  match goal with
  | |- bind ?m ?k ?w = _ =>
      let r := eval lazy in (m w) in
      match r with
      | (Ok ?a, ?w') => change (bind m k w) with (k a w'); cbv beta iota
      end
  end.

(** With the joint names in place and the five fingers in the dict, the
    builder returns the message of those names and of [joint_values]. *)
Lemma build_joint_state_msg_cached now w f0 f1 f2 f3 f4 :
  self_fingers w !! "thumb" = Some f0 ->
  self_fingers w !! "index" = Some f1 ->
  self_fingers w !! "middle" = Some f2 ->
  self_fingers w !! "ring" = Some f3 ->
  self_fingers w !! "pinky" = Some f4 ->
  self_joint_names w = joint_names_comprehension ->
  build_joint_state_msg now w =
  (Ok (mkJointState (mkHeader now "") joint_names_comprehension
         (joint_values (self_hand w) [f0; f1; f2; f3; f4])), w).
Proof.
  intros H0 H1 H2 H3 H4 Hn.
  unfold build_joint_state_msg.
  rewrite bind_get.
  destruct (decide _) as [E|_]; [rewrite Hn in E; discriminate E|].
  rewrite (bind_Ok _ _ w w tt) by reflexivity.
  rewrite bind_get. rewrite Hn.
  run_head.
  rewrite (bind_Ok _ _ _ _ _ (finger_list_Ok w f0 f1 f2 f3 f4 H0 H1 H2 H3 H4)).
  run_head.
  lazy. reflexivity.
Qed.

Lemma fingers_ready_lookup (w : World) :
  fingers_ready w ->
  exists f0 f1 f2 f3 f4,
    self_fingers w !! "thumb" = Some f0 /\
    self_fingers w !! "index" = Some f1 /\
    self_fingers w !! "middle" = Some f2 /\
    self_fingers w !! "ring" = Some f3 /\
    self_fingers w !! "pinky" = Some f4.
Proof.
  intros H.
  destruct (H "thumb") as [f0 H0]; [set_solver|].
  destruct (H "index") as [f1 H1]; [set_solver|].
  destruct (H "middle") as [f2 H2]; [set_solver|].
  destruct (H "ring") as [f3 H3]; [set_solver|].
  destruct (H "pinky") as [f4 H4]; [set_solver|].
  exists f0, f1, f2, f3, f4. auto.
Qed.

(** Under the invariant the builder returns, whether the names were cached
    or not. *)
Lemma build_joint_state_msg_Inv now w :
  Inv w ->
  exists f0 f1 f2 f3 f4,
    self_fingers w !! "thumb" = Some f0 /\
    self_fingers w !! "index" = Some f1 /\
    self_fingers w !! "middle" = Some f2 /\
    self_fingers w !! "ring" = Some f3 /\
    self_fingers w !! "pinky" = Some f4 /\
    build_joint_state_msg now w =
    (Ok (mkJointState (mkHeader now "") joint_names_comprehension
           (joint_values (self_hand w) [f0; f1; f2; f3; f4])),
     cache_names w).
Proof.
  intros [Hr Hc].
  destruct (fingers_ready_lookup w Hr) as (f0 & f1 & f2 & f3 & f4 & H0 & H1 & H2 & H3 & H4).
  exists f0, f1, f2, f3, f4. repeat (split; [assumption|]).
  destruct Hc as [Hc|Hc].
  - unfold build_joint_state_msg. rewrite bind_get.
    unfold cache_names.
    destruct (decide _) as [_|E]; [|contradiction].
    set (w' := push_log _ _).
    rewrite (bind_Ok _ _ w w' tt) by reflexivity.
    rewrite bind_get.
    change (self_joint_names w') with joint_names_comprehension.
    run_head.
    rewrite (bind_Ok _ _ _ _ _ (finger_list_Ok w' f0 f1 f2 f3 f4 H0 H1 H2 H3 H4)).
    run_head.
    lazy. reflexivity.
  - rewrite (cache_names_id w) by (rewrite Hc; discriminate).
    apply build_joint_state_msg_cached; assumption.
Qed.

(** ** Stable relations *)

Lemma fingers_ready_insert (k : string) (f : Finger) (w : World) :
  fingers_ready w ->
  fingers_ready (set_fingers (<[k:=f]> (self_fingers w)) w).
Proof.
  intros H n Hin. cbn [self_fingers set_fingers].
  apply lookup_insert_is_Some'. right. apply H, Hin.
Qed.

Global Instance log_grows_stable : Stable log_grows.
Proof.
  split; try apply _; intros; auto with frame.
  apply cache_names_log.
Qed.

Global Instance inv_kept_stable : Stable inv_kept.
Proof.
  split; try apply _; intros; auto with frame.
  - intros [Hr Hc]. split; [apply fingers_ready_insert, Hr|exact Hc].
  - intros H. apply cache_names_inv, H.
Qed.

Global Instance names_kept_stable : Stable names_kept.
Proof.
  split; try apply _; intros; auto with frame.
  intros H. rewrite cache_names_id by exact H. reflexivity.
Qed.

Global Instance same_ts_pub_stable : Stable (same ts_pub).
Proof.
  split; try apply _; intros; auto with frame.
  apply cache_names_ts_pub.
Qed.

(** A fault point keeps what the statement behind it keeps. *)
Lemma at_stmt_preserves (rel : relation World) `{!PreOrder rel} {A}
      (tk : Tick) (s : Stmt) (m : M A) :
  preserves rel m -> preserves rel (at_stmt tk s m).
Proof.
  intros Hm. unfold at_stmt. destruct (fault tk) as [[s' e]|]; [|exact Hm].
  destruct (decide _); [apply preserves_raise; apply _|exact Hm].
Qed.

Lemma at_place_preserves (rel : relation World) `{!PreOrder rel} {A}
      (tk : Tick) (p : Place) (m : M A) :
  preserves rel m -> preserves rel (at_place tk p m).
Proof.
  intros Hm. unfold at_place. destruct (outside tk) as [[p' e]|]; [|exact Hm].
  destruct (decide _); [apply preserves_raise; apply _|exact Hm].
Qed.

Section StableRuns.
Context (rel : relation World) `{!Stable rel}.
Variable qfe : R -> R -> R -> R * R * R * R.

Lemma show_data_stable (what : list string) : preserves rel (show_data what).
Proof. unfold show_data. structural. Qed.

Lemma on_frame_stable (f : Frame) : preserves rel (on_frame f).
Proof. unfold on_frame. structural. all: apply show_data_stable. Qed.

Lemma build_joint_state_msg_stable (now : Time) :
  preserves rel (build_joint_state_msg now).
Proof. intros w. rewrite build_joint_state_msg_world. apply stable_names. Qed.

Lemma build_pose_stamped_msg_stable (now : Time) (test : bool) :
  preserves rel (build_pose_stamped_msg qfe now test).
Proof.
  unfold build_pose_stamped_msg. structural.
  apply test_pose_preserves; apply _.
Qed.

Lemma at_stmt_stable {A} (tk : Tick) (s : Stmt) (m : M A) :
  preserves rel m -> preserves rel (at_stmt tk s m).
Proof.
  intros Hm. unfold at_stmt. destruct (fault tk) as [[s' e]|]; [|exact Hm].
  destruct (decide _); [apply preserves_raise; apply _|exact Hm].
Qed.

Lemma at_place_stable {A} (tk : Tick) (p : Place) (m : M A) :
  preserves rel m -> preserves rel (at_place tk p m).
Proof.
  intros Hm. unfold at_place. destruct (outside tk) as [[p' e]|]; [|exact Hm].
  destruct (decide _); [apply preserves_raise; apply _|exact Hm].
Qed.

Lemma iteration_stable (tk : Tick) : preserves rel (iteration qfe tk).
Proof.
  unfold iteration.
  repeat first [apply at_stmt_stable | structural_step]; try setter.
  - apply build_joint_state_msg_stable.
  - apply build_pose_stamped_msg_stable.
Qed.

Lemma turn_stable (tk : Tick) : preserves rel (turn qfe tk).
Proof.
  unfold turn.
  repeat first [apply at_place_stable | structural_step]; try setter.
  apply iteration_stable.
Qed.

Lemma deliver_stable (fs : list Frame) : preserves rel (deliver fs).
Proof. unfold deliver. structural. apply on_frame_stable. Qed.

Lemma publish_loop_stable (env : list Tick) (quitting : bool) :
  preserves rel (publish_loop qfe env quitting).
Proof.
  revert quitting. induction env as [|tk env IH]; intros q; cbn [publish_loop].
  - structural.
  - destruct (is_shutdown tk); [structural|].
    apply at_place_stable. destruct q; structural.
    + apply deliver_stable.
    + apply turn_stable.
Qed.

Lemma start_transmit_stable (env : list Tick) :
  preserves rel (start_transmit qfe env).
Proof. unfold start_transmit. structural. apply publish_loop_stable. Qed.

Lemma step_stable (w w' : World) : step qfe w w' -> rel w w'.
Proof.
  intros [f w0|tk w0|now w0|now test w0].
  - apply on_frame_stable.
  - apply turn_stable.
  - apply build_joint_state_msg_stable.
  - apply build_pose_stamped_msg_stable.
Qed.

Lemma steps_stable (w w' : World) : rtc (step qfe) w w' -> rel w w'.
Proof.
  induction 1 as [w|w1 w2 w3 H12 _ IH].
  - reflexivity.
  - etransitivity; [apply step_stable, H12|exact IH].
Qed.

End StableRuns.

(** ** The callbacks return *)

Lemma show_data_hand_succeeds : succeeds (show_data ["hand"]).
Proof. intros w. exists tt. reflexivity. Qed.

Lemma on_frame_succeeds (f : Frame) : succeeds (on_frame f).
Proof.
  unfold on_frame. structural.
  all: try apply show_data_hand_succeeds.
  all: intros w; destruct (finger_type _); eexists; reflexivity.
Qed.

Lemma deliver_Ok (fs : list Frame) (w : World) :
  exists w', deliver fs w = (Ok tt, w').
Proof.
  assert (H : succeeds (deliver fs)).
  { unfold deliver. structural. apply on_frame_succeeds. }
  destruct (H w) as [[] Hw]. exists (snd (deliver fs w)).
  destruct (deliver fs w) as [r w']. cbn in *. subst r. reflexivity.
Qed.

(** ** The invariant *)

Lemma on_init_Inv (w : World) : Inv (snd (on_init w)).
Proof.
  split.
  - intros n Hin. unfold FINGER_NAMES in Hin.
    repeat (apply elem_of_cons in Hin as [->|Hin]; [eexists; reflexivity|]).
    apply elem_of_nil in Hin. contradiction.
  - left. reflexivity.
Qed.

Lemma reachable_Inv qfe (w : World) : reachable qfe w -> Inv w.
Proof.
  intros [w0 Hsteps].
  apply (steps_stable inv_kept qfe _ _ Hsteps), on_init_Inv.
Qed.

(** ** One turn of the loop *)

Lemma at_stmt_quiet {A} (tk : Tick) (s : Stmt) (m : M A) :
  fault tk = None -> at_stmt tk s m = m.
Proof. intros H. unfold at_stmt. rewrite H. reflexivity. Qed.

Lemma at_stmt_hit {A} (tk : Tick) (s : Stmt) (e : exn) (m : M A) :
  fault tk = Some (s, e) -> at_stmt tk s m = raise e.
Proof.
  intros H. unfold at_stmt. rewrite H.
  destruct (decide _); [reflexivity|contradiction].
Qed.

Lemma at_stmt_miss {A} (tk : Tick) (s s' : Stmt) (e : exn) (m : M A) :
  fault tk = Some (s', e) -> s <> s' -> at_stmt tk s m = m.
Proof.
  intros H Hne. unfold at_stmt. rewrite H.
  destruct (decide _); [contradiction|reflexivity].
Qed.

(** A quiet turn from a world of the invariant: both builders return, both
    messages are published, and the stored time advances. *)
Lemma iteration_quiet qfe (tk : Tick) (w : World) :
  Inv w -> fault tk = None ->
  exists js ps,
    build_joint_state_msg (now_js tk) w = (Ok js, cache_names w) /\
    build_pose_stamped_msg qfe (now_ps tk) true (cache_names w)
      = (Ok ps, push_stdout ps (cache_names w)) /\
    iteration qfe tk w
      = (Ok tt,
         set_t (self_t w + 1 / 100)
           (push_ps ps (push_js js (push_stdout ps (cache_names w))))).
Proof.
  intros HI Hq.
  destruct (build_joint_state_msg_Inv (now_js tk) w HI)
    as (f0 & f1 & f2 & f3 & f4 & _ & _ & _ & _ & _ & Hjs).
  destruct (build_pose_stamped_msg_test_Ok qfe (now_ps tk) (cache_names w))
    as [ps Hps].
  eexists; exists ps. split; [exact Hjs|]. split; [exact Hps|].
  unfold iteration. rewrite !at_stmt_quiet by exact Hq.
  rewrite (bind_Ok _ _ _ _ _ Hjs), (bind_Ok _ _ _ _ _ Hps).
  do 5 (cbv [bind ret modify get]; rewrite ?at_stmt_quiet by exact Hq).
  cbn [self_t push_ps push_js push_stdout].
  rewrite cache_names_t. reflexivity.
Qed.

(** A fault at any statement of the body comes out of the body. *)
Lemma iteration_fault qfe (tk : Tick) (s : Stmt) (e : exn) (w : World) :
  Inv w -> fault tk = Some (s, e) ->
  fst (iteration qfe tk w) = Raise e.
Proof.
  intros HI Hf.
  destruct (build_joint_state_msg_Inv (now_js tk) w HI)
    as (f0 & f1 & f2 & f3 & f4 & _ & _ & _ & _ & _ & Hjs).
  destruct (build_pose_stamped_msg_test_Ok qfe (now_ps tk) (cache_names w))
    as [ps Hps].
  unfold iteration.
  destruct s;
    repeat first
      [ rewrite (at_stmt_hit tk _ e) by exact Hf; reflexivity
      | rewrite (at_stmt_miss tk _ _ e) by (exact Hf || discriminate)
      | rewrite (bind_Ok _ _ _ _ _ Hjs)
      | rewrite (bind_Ok _ _ _ _ _ Hps)
      | rewrite bind_modify
      | rewrite (bind_Ok (ret _) _ _ _ _ eq_refl) ].
Qed.

Lemma turn_quiet qfe (tk : Tick) (w : World) :
  Inv w -> fault tk = None -> fst (turn qfe tk w) = Ok false.
Proof.
  intros HI Hq.
  destruct (iteration_quiet qfe tk w HI Hq) as (js & ps & _ & _ & Hit).
  unfold turn, try_except. rewrite (bind_Ok _ _ _ _ _ Hit). reflexivity.
Qed.

Lemma turn_quiet_run qfe (tk : Tick) (w : World) :
  Inv w -> fault tk = None ->
  turn qfe tk w = (Ok false, snd (iteration qfe tk w)).
Proof.
  intros HI Hq.
  destruct (iteration_quiet qfe tk w HI Hq) as (js & ps & _ & _ & Hit).
  unfold turn, try_except. rewrite (bind_Ok _ _ _ _ _ Hit). rewrite Hit.
  reflexivity.
Qed.

Lemma at_place_none {A} (tk : Tick) (p : Place) (m : M A) :
  outside tk = None -> at_place tk p m = m.
Proof. intros H. unfold at_place. rewrite H. reflexivity. Qed.

Lemma at_place_hit {A} (tk : Tick) (p : Place) (e : exn) (m : M A) :
  outside tk = Some (p, e) -> at_place tk p m = raise e.
Proof.
  intros H. unfold at_place. rewrite H.
  destruct (decide _); [reflexivity|contradiction].
Qed.

(** The loop test lets the turn begin unless the fault strikes there. *)
Lemma at_place_test {A} (tk : Tick) (m : M A) :
  (forall e, outside tk <> Some (P_test, e)) -> at_place tk P_test m = m.
Proof.
  intros H. unfold at_place. destruct (outside tk) as [[p e]|]; [|reflexivity].
  destruct (decide _) as [<-|]; [destruct (H e); reflexivity|reflexivity].
Qed.

(** The handler of the loop: a keyboard interrupt is logged and sets
    [quitting], unless an exception strikes inside the handler, which then
    leaves the [try] statement. *)
Lemma turn_interrupt qfe (tk : Tick) (s : Stmt) (w : World) :
  Inv w -> fault tk = Some (s, KeyboardInterrupt) ->
  turn qfe tk w
  = match outside tk with
    | Some (P_log, e) => (Raise e, snd (iteration qfe tk w))
    | Some (P_quit, e) =>
        (Raise e, push_log interrupt_detected (snd (iteration qfe tk w)))
    | _ => (Ok true, push_log interrupt_detected (snd (iteration qfe tk w)))
    end.
Proof.
  intros HI Hf. pose proof (iteration_fault qfe tk s _ w HI Hf) as Hit.
  unfold turn, try_except, bind, at_place.
  destruct (iteration qfe tk w) as [r w1]. cbn in Hit. subst r.
  destruct (outside tk) as [[[] e]|]; reflexivity.
Qed.

(** Any other exception passes the handler. *)
Lemma turn_fault qfe (tk : Tick) (s : Stmt) (e : exn) (w : World) :
  Inv w -> fault tk = Some (s, e) -> is_KeyboardInterrupt e = false ->
  fst (turn qfe tk w) = Raise e.
Proof.
  intros HI Hf He. pose proof (iteration_fault qfe tk s e w HI Hf) as Hit.
  unfold turn, try_except, bind.
  destruct (iteration qfe tk w) as [r w1]. cbn in Hit. subst r.
  rewrite He. reflexivity.
Qed.

(** The [try] statement leaves the world of its body, but for the log line
    of the handler. *)
Lemma turn_world qfe (tk : Tick) (w : World) :
  snd (turn qfe tk w) = snd (iteration qfe tk w) \/
  snd (turn qfe tk w)
  = push_log interrupt_detected (snd (iteration qfe tk w)).
Proof.
  unfold turn, try_except, bind, at_place.
  destruct (iteration qfe tk w) as [[[]|e|] w1]; cbn [snd];
    try (left; reflexivity).
  destruct (is_KeyboardInterrupt e); [|left; reflexivity].
  destruct (outside tk) as [[[] e']|]; cbn; auto.
Qed.

(** ** What the loop logs *)

Lemma show_data_info (what : list string) :
  preserves info_logged (show_data what).
Proof. unfold show_data. structural. Qed.

Lemma on_frame_info (f : Frame) : preserves info_logged (on_frame f).
Proof. unfold on_frame. structural. all: apply show_data_info. Qed.

Lemma deliver_info (fs : list Frame) : preserves info_logged (deliver fs).
Proof. unfold deliver. structural. apply on_frame_info. Qed.

Lemma build_joint_state_msg_info (now : Time) :
  preserves info_logged (build_joint_state_msg now).
Proof.
  intros w. rewrite build_joint_state_msg_world. unfold cache_names.
  destruct (decide _); [|reflexivity].
  eexists. split; [reflexivity|]. repeat constructor.
Qed.

Lemma build_pose_stamped_msg_info qfe (now : Time) (test : bool) :
  preserves info_logged (build_pose_stamped_msg qfe now test).
Proof.
  unfold build_pose_stamped_msg. structural.
  apply test_pose_preserves; apply _.
Qed.

Lemma iteration_info qfe (tk : Tick) :
  preserves info_logged (iteration qfe tk).
Proof.
  unfold iteration.
  repeat first [apply at_stmt_preserves; [apply _|] | structural_step];
    auto with frame.
  - apply build_joint_state_msg_info.
  - apply build_pose_stamped_msg_info.
Qed.

(** ** The loop *)

Lemma run_pair {A} (m : M A) (w : World) : m w = (fst (m w), snd (m w)).
Proof. destruct (m w). reflexivity. Qed.

(** The loop test that finds [quitting] set ends the loop. *)
Lemma publish_loop_quitting qfe (tk : Tick) (env : list Tick) (w : World) :
  outside tk = None -> publish_loop qfe (tk :: env) true w = (Ok tt, w).
Proof.
  intros Ho. cbn [publish_loop]. rewrite at_place_none by exact Ho.
  destruct (is_shutdown tk); reflexivity.
Qed.

(** An exception at the loop test leaves the loop. *)
Lemma publish_loop_test_fault qfe (tk : Tick) (env : list Tick)
      (quitting : bool) (e : exn) (w : World) :
  is_shutdown tk = false -> outside tk = Some (P_test, e) ->
  publish_loop qfe (tk :: env) quitting w = (Raise e, w).
Proof.
  intros Hs Ho. cbn [publish_loop]. rewrite Hs.
  rewrite (at_place_hit tk P_test e) by exact Ho. reflexivity.
Qed.

(** A loop test that passes lets the turn begin. *)
Lemma publish_loop_enter qfe (tk : Tick) (env : list Tick) (w : World) :
  is_shutdown tk = false -> (forall e, outside tk <> Some (P_test, e)) ->
  publish_loop qfe (tk :: env) false w
  = (deliver (frames tk) ;;;
     quitting <- turn qfe tk ;;
     publish_loop qfe env quitting) w.
Proof.
  intros Hs Ho. cbn [publish_loop]. rewrite Hs.
  rewrite at_place_test by exact Ho. reflexivity.
Qed.

Lemma quiet_passes_test (tk : Tick) :
  outside tk = None -> forall e, outside tk <> Some (P_test, e).
Proof. intros Ho e. rewrite Ho. discriminate. Qed.

(** The frames of a turn, delivered from a world of the invariant. *)
Lemma deliver_run (fs : list Frame) (w : World) :
  Inv w ->
  exists w1, deliver fs w = (Ok tt, w1) /\ Inv w1 /\ info_logged w w1.
Proof.
  intros HI. destruct (deliver_Ok fs w) as [w1 Hd]. exists w1.
  split; [exact Hd|].
  replace w1 with (snd (deliver fs w)) by (rewrite Hd; reflexivity).
  split; [apply (deliver_stable inv_kept), HI|apply deliver_info].
Qed.

(** One quiet turn at the head of the environment. *)
Lemma publish_loop_quiet_turn qfe (tk : Tick) (env : list Tick) (w : World) :
  Inv w -> quiet tk ->
  exists w', Inv w' /\ info_logged w w' /\
    publish_loop qfe (tk :: env) false w = publish_loop qfe env false w'.
Proof.
  intros HI (Hs & Hq & Ho).
  rewrite (publish_loop_enter qfe tk env w Hs (quiet_passes_test tk Ho)).
  destruct (deliver_run (frames tk) w HI) as (w1 & Hd & HI1 & Hl1).
  exists (snd (iteration qfe tk w1)). split; [|split].
  - apply (iteration_stable inv_kept), HI1.
  - etransitivity; [exact Hl1|apply iteration_info].
  - rewrite (bind_Ok _ _ _ _ _ Hd).
    rewrite (bind_Ok _ _ _ _ _ (turn_quiet_run qfe tk w1 HI1 Hq)).
    reflexivity.
Qed.

Lemma info_logged_grows (w w' : World) : info_logged w w' -> log_grows w w'.
Proof. intros (l & Hl & _). exists l. exact Hl. Qed.

Lemma publish_loop_quiet_head qfe (tk : Tick) (env : list Tick) (w : World) :
  Inv w -> quiet tk ->
  exists w', Inv w' /\ log_grows w w' /\
    publish_loop qfe (tk :: env) false w = publish_loop qfe env false w'.
Proof.
  intros HI Hq.
  destruct (publish_loop_quiet_turn qfe tk env w HI Hq) as (w' & HI' & Hl & H).
  exists w'. split; [exact HI'|]. split; [|exact H].
  apply info_logged_grows, Hl.
Qed.

(** Any number of quiet turns at the head of the environment. *)
Lemma publish_loop_quiet_turns qfe (pre : list Tick) (w : World) :
  Inv w -> Forall quiet pre ->
  exists w', Inv w' /\ info_logged w w' /\
    forall rest,
      publish_loop qfe (pre ++ rest) false w = publish_loop qfe rest false w'.
Proof.
  intros HI Hpre. revert w HI.
  induction Hpre as [|tk0 pre Hq _ IH]; intros w HI.
  - exists w. split; [exact HI|]. split; [reflexivity|]. reflexivity.
  - destruct (publish_loop_quiet_turn qfe tk0 [] w HI Hq)
      as (w1 & HI1 & Hl1 & _).
    destruct (IH (snd (iteration qfe tk0
                         (snd (deliver (frames tk0) w))))) as (w' & HI' & Hl' & H).
    + apply (iteration_stable inv_kept), (deliver_stable inv_kept), HI.
    + exists w'. split; [exact HI'|]. split.
      * etransitivity; [|exact Hl'].
        etransitivity; [apply deliver_info|apply iteration_info].
      * intros rest. cbn [app]. rewrite <- H.
        destruct Hq as (Hs & Hq & Ho).
        rewrite (publish_loop_enter qfe tk0 _ w Hs (quiet_passes_test tk0 Ho)).
        destruct (deliver_run (frames tk0) w HI) as (w2 & Hd & HI2 & _).
        rewrite (bind_Ok _ _ _ _ _ Hd). rewrite Hd. cbn [snd].
        rewrite (bind_Ok _ _ _ _ _ (turn_quiet_run qfe tk0 w2 HI2 Hq)).
        reflexivity.
Qed.

(** A turn whose body a keyboard interrupt strikes: the handler runs, and
    what comes of the loop depends on what strikes the handler. *)
Lemma publish_loop_interrupted_turn qfe (tk : Tick) (rest : list Tick)
      (s : Stmt) (w : World) :
  Inv w -> is_shutdown tk = false ->
  (forall e, outside tk <> Some (P_test, e)) ->
  fault tk = Some (s, KeyboardInterrupt) ->
  exists w1, info_logged w w1 /\
    publish_loop qfe (tk :: rest) false w
    = match outside tk with
      | Some (P_log, e) => (Raise e, w1)
      | Some (P_quit, e) => (Raise e, push_log interrupt_detected w1)
      | _ => publish_loop qfe rest true (push_log interrupt_detected w1)
      end.
Proof.
  intros HI Hs Ho Hf.
  destruct (deliver_run (frames tk) w HI) as (w0 & Hd & HI0 & Hl0).
  exists (snd (iteration qfe tk w0)). split.
  - etransitivity; [exact Hl0|apply iteration_info].
  - rewrite (publish_loop_enter qfe tk rest w Hs Ho).
    rewrite (bind_Ok _ _ _ _ _ Hd).
    pose proof (turn_interrupt qfe tk s w0 HI0 Hf) as Ht.
    destruct (outside tk) as [[[] e]|].
    + rewrite (bind_Ok _ _ _ _ _ Ht). reflexivity.
    + rewrite (bind_Raise _ _ _ _ _ Ht). reflexivity.
    + rewrite (bind_Raise _ _ _ _ _ Ht). reflexivity.
    + rewrite (bind_Ok _ _ _ _ _ Ht). reflexivity.
Qed.

(** A turn whose body another exception strikes. *)
Lemma publish_loop_failed_turn qfe (tk : Tick) (rest : list Tick)
      (s : Stmt) (e : exn) (w : World) :
  Inv w -> is_shutdown tk = false ->
  (forall e', outside tk <> Some (P_test, e')) ->
  fault tk = Some (s, e) -> e <> KeyboardInterrupt ->
  fst (publish_loop qfe (tk :: rest) false w) = Raise e.
Proof.
  intros HI Hs Ho Hf He.
  destruct (deliver_run (frames tk) w HI) as (w0 & Hd & HI0 & _).
  rewrite (publish_loop_enter qfe tk rest w Hs Ho).
  rewrite (bind_Ok _ _ _ _ _ Hd).
  rewrite (bind_Raise _ _ w0 (snd (turn qfe tk w0)) e); [reflexivity|].
  rewrite (run_pair (turn qfe tk) w0) at 1.
  rewrite (turn_fault qfe tk s e w0 HI0 Hf); [reflexivity|].
  destruct e; try reflexivity. contradiction.
Qed.

(** ** Sample runs *)

Lemma test_pose_blank :
  fst (test_pose blank_world) = Ok ((sin 0 * 1000, 0, 0), (0, 0, 0))%R.
Proof.
  rewrite test_pose_unfold. cbn zeta. change (self_t blank_world) with 0%R.
  rewrite py_mod_0. pose proof PI_RGT_0.
  destruct (Rlt_dec 0 (PI * 2)); [reflexivity|exfalso; lra].
Qed.

(** * The claims *)

(** C3. In every state the running server reaches, [build_joint_state_msg]
    returns a message whose list of joint names is as long as its list of
    positions. *)
Theorem joint_state_lengths_agree qfe (now : Time) (w : World) :
  reachable qfe w ->
  exists msg w',
    build_joint_state_msg now w = (Ok msg, w') /\
    length (name msg) = length (position msg).
Proof.
  intros Hr. apply reachable_Inv in Hr.
  destruct (build_joint_state_msg_Inv now w Hr)
    as (f0 & f1 & f2 & f3 & f4 & _ & _ & _ & _ & _ & Hjs).
  eexists. eexists. split; [exact Hjs|]. reflexivity.
Qed.

Lemma joint_state_lengths_agree_witness :
  exists msg w',
    build_joint_state_msg 7%Z tracking_world = (Ok msg, w') /\
    length (name msg) = length (position msg).
Proof.
  apply (joint_state_lengths_agree quaternion_from_euler_sxyz).
  exists blank_world. apply rtc_once.
  apply (step_frame _ sample_frame started_world).
Defined.

(** C4. In every state the running server reaches, the message of
    [build_joint_state_msg] names its joints in one fixed order: the hand's
    roll, pitch, yaw; then, finger by finger from thumb to pinky and bone by
    bone from meta to dist, the bone's roll, pitch, yaw. *)
Theorem joint_names_in_fixed_order qfe (now : Time) (w : World) :
  reachable qfe w ->
  exists msg,
    fst (build_joint_state_msg now w) = Ok msg /\
    name msg =
    ["hand.roll"; "hand.pitch"; "hand.yaw"; "thumb.meta.roll";
     "thumb.meta.pitch"; "thumb.meta.yaw"; "thumb.prox.roll";
     "thumb.prox.pitch"; "thumb.prox.yaw"; "thumb.mid.roll";
     "thumb.mid.pitch"; "thumb.mid.yaw"; "thumb.dist.roll";
     "thumb.dist.pitch"; "thumb.dist.yaw"; "index.meta.roll";
     "index.meta.pitch"; "index.meta.yaw"; "index.prox.roll";
     "index.prox.pitch"; "index.prox.yaw"; "index.mid.roll";
     "index.mid.pitch"; "index.mid.yaw"; "index.dist.roll";
     "index.dist.pitch"; "index.dist.yaw"; "middle.meta.roll";
     "middle.meta.pitch"; "middle.meta.yaw"; "middle.prox.roll";
     "middle.prox.pitch"; "middle.prox.yaw"; "middle.mid.roll";
     "middle.mid.pitch"; "middle.mid.yaw"; "middle.dist.roll";
     "middle.dist.pitch"; "middle.dist.yaw"; "ring.meta.roll";
     "ring.meta.pitch"; "ring.meta.yaw"; "ring.prox.roll";
     "ring.prox.pitch"; "ring.prox.yaw"; "ring.mid.roll"; "ring.mid.pitch";
     "ring.mid.yaw"; "ring.dist.roll"; "ring.dist.pitch"; "ring.dist.yaw";
     "pinky.meta.roll"; "pinky.meta.pitch"; "pinky.meta.yaw";
     "pinky.prox.roll"; "pinky.prox.pitch"; "pinky.prox.yaw";
     "pinky.mid.roll"; "pinky.mid.pitch"; "pinky.mid.yaw";
     "pinky.dist.roll"; "pinky.dist.pitch"; "pinky.dist.yaw"].
Proof.
  intros Hr. apply reachable_Inv in Hr.
  destruct (build_joint_state_msg_Inv now w Hr)
    as (f0 & f1 & f2 & f3 & f4 & _ & _ & _ & _ & _ & Hjs).
  eexists. split; [rewrite Hjs; reflexivity|]. reflexivity.
Qed.

Lemma joint_names_in_fixed_order_witness :
  exists msg,
    fst (build_joint_state_msg 7%Z started_world) = Ok msg /\
    nth 3 (name msg) "" = "thumb.meta.roll" /\
    nth 62 (name msg) "" = "pinky.dist.yaw".
Proof.
  destruct (joint_names_in_fixed_order quaternion_from_euler_sxyz 7%Z
              started_world) as (msg & Hmsg & Hname).
  - exists blank_world. apply rtc_refl.
  - exists msg. rewrite Hname. split; [exact Hmsg|]. split; reflexivity.
Defined.

(** C9. In every state the running server reaches, the message of
    [build_joint_state_msg] carries, under hand.roll, the roll of the palm
    normal and, under hand.pitch and hand.yaw, the pitch and the yaw of the
    hand's direction. *)
Theorem hand_joints_sources qfe (now : Time) (w : World) :
  reachable qfe w ->
  exists msg,
    fst (build_joint_state_msg now w) = Ok msg /\
    name msg !! 0%nat = Some "hand.roll" /\
    position msg !! 0%nat = Some (vroll (palm_normal (self_hand w))) /\
    name msg !! 1%nat = Some "hand.pitch" /\
    position msg !! 1%nat = Some (vpitch (hand_direction (self_hand w))) /\
    name msg !! 2%nat = Some "hand.yaw" /\
    position msg !! 2%nat = Some (vyaw (hand_direction (self_hand w))).
Proof.
  intros Hr. apply reachable_Inv in Hr.
  destruct (build_joint_state_msg_Inv now w Hr)
    as (f0 & f1 & f2 & f3 & f4 & _ & _ & _ & _ & _ & Hjs).
  eexists. split; [rewrite Hjs; reflexivity|]. repeat split.
Qed.

Lemma hand_joints_sources_witness :
  exists msg,
    fst (build_joint_state_msg 7%Z tracking_world) = Ok msg /\
    position msg !! 0%nat = Some (1 / 8)%R /\
    position msg !! 1%nat = Some (1 / 3)%R /\
    position msg !! 2%nat = Some (1 / 5)%R.
Proof.
  destruct (hand_joints_sources quaternion_from_euler_sxyz 7%Z
              tracking_world) as (msg & Hmsg & _ & H0 & _ & H1 & _ & H2).
  - exists blank_world. apply rtc_once.
    apply (step_frame _ sample_frame started_world).
  - exists msg. split; [exact Hmsg|]. split; [exact H0|].
    split; [exact H1|exact H2].
Defined.

(** C5. [build_joint_state_msg] computes the joint name list only when it
    is empty (a list that is not empty leaves the whole world, log included,
    as it was; an empty one is replaced by the computed list), and after
    any call the list is not empty and stays the same through every later
    step of the server. *)
Theorem joint_names_computed_once qfe (now : Time) (w w2 : World) :
  let w1 := snd (build_joint_state_msg now w) in
  rtc (step qfe) w1 w2 ->
  (self_joint_names w <> [] -> w1 = w) /\
  (self_joint_names w = [] ->
     self_joint_names w1 = joint_names_comprehension) /\
  self_joint_names w1 <> [] /\
  self_joint_names w2 = self_joint_names w1.
Proof.
  intros w1 Hsteps. unfold w1 in *. clear w1.
  rewrite build_joint_state_msg_world in *.
  split; [apply cache_names_id|]. split; [|split].
  - intros He. apply cache_names_names. left. exact He.
  - apply cache_names_nonempty.
  - apply (steps_stable names_kept qfe _ _ Hsteps), cache_names_nonempty.
Qed.

Lemma joint_names_computed_once_witness :
  self_joint_names
    (snd (build_joint_state_msg 9%Z
            (snd (on_frame sample_frame
                    (snd (build_joint_state_msg 7%Z started_world))))))
  = self_joint_names (snd (build_joint_state_msg 7%Z started_world)).
Proof.
  refine (proj2 (proj2 (proj2
            (joint_names_computed_once quaternion_from_euler_sxyz 7%Z
               started_world _ _)))).
  eapply rtc_l; [apply step_frame|]. apply rtc_once, step_build_js.
Defined.

(** The sample of the pitch phase: the generator returns a pitch of [PI],
    which the conversion takes as its second argument. *)
Lemma test_pose_pitching :
  fst (test_pose pitching_world) = Ok ((0, 0, 0), (PI, 0, 0))%R.
Proof.
  pose proof PI_RGT_0 as Hpi.
  rewrite test_pose_unfold. cbn zeta.
  change (self_t pitching_world) with (6 * PI + PI / 3)%R.
  rewrite py_mod_small by lra.
  assert (Hc : cos (6 * PI + PI / 3) = (1 / 2)%R).
  { replace (6 * PI + PI / 3)%R with (PI / 3 + 2 * INR 3 * PI)%R
      by (simpl; field).
    rewrite cos_period. exact cos_PI3. }
  rewrite Hc.
  replace (1 / 2 * PI * 2)%R with PI by field.
  phase_cases; try reflexivity; exfalso; lra.
Qed.

Lemma quaternion_from_euler_sxyz_pitch_PI :
  quaternion_from_euler_sxyz 0 PI 0 = (0, 1, 0, 0)%R.
Proof.
  unfold quaternion_from_euler_sxyz.
  replace (0 / 2)%R with 0%R by field.
  rewrite cos_0, sin_0, cos_PI2, sin_PI2.
  f_equal; [f_equal; [f_equal|]|]; ring.
Qed.

(** C7. With [test=True] the pose of the message is the pose of
    [test_pose]: the x, y and z of its position are the triple (x, y, z),
    and the x, y, z and w of its orientation are the four numbers that
    [quaternion_from_euler] makes of roll, pitch and yaw, in that order. *)
Theorem pose_from_test_pose qfe (now : Time) (w : World)
        (x y z pitch yaw roll : R) :
  fst (test_pose w) = Ok ((x, y, z), (pitch, yaw, roll)) ->
  exists msg,
    fst (build_pose_stamped_msg qfe now true w) = Ok msg /\
    (px (pose_position (pose msg)), py (pose_position (pose msg)),
     pz (pose_position (pose msg))) = (x, y, z) /\
    (qx (orientation (pose msg)), qy (orientation (pose msg)),
     qz (orientation (pose msg)), qw (orientation (pose msg)))
    = qfe roll pitch yaw.
Proof.
  intros Hv. eexists.
  rewrite (build_pose_stamped_msg_test qfe now w _ _ _ _ _ _ Hv).
  cbn [fst pose pose_position orientation px py pz].
  split; [reflexivity|]. split; [reflexivity|].
  destruct (qfe roll pitch yaw) as [[[q0 q1] q2] q3]. reflexivity.
Qed.

(** In the world of the sample hand, at a time of the pitch phase: the
    position is the origin and not the palm, the orientation is the
    half turn about the second axis, and the message is not the one built
    without [test]. *)
Lemma pose_from_test_pose_witness :
  exists msg,
    fst (build_pose_stamped_msg quaternion_from_euler_sxyz 5%Z true
           pitching_world) = Ok msg /\
    (px (pose_position (pose msg)), py (pose_position (pose msg)),
     pz (pose_position (pose msg))) = (0, 0, 0)%R /\
    (qx (orientation (pose msg)), qy (orientation (pose msg)),
     qz (orientation (pose msg)), qw (orientation (pose msg)))
    = (0, 1, 0, 0)%R /\
    fst (build_pose_stamped_msg quaternion_from_euler_sxyz 5%Z false
           pitching_world) <> Ok msg.
Proof.
  destruct (pose_from_test_pose quaternion_from_euler_sxyz 5%Z pitching_world
              _ _ _ _ _ _ test_pose_pitching) as (msg & Hm & Hp & Ho).
  exists msg. split; [exact Hm|]. split; [exact Hp|]. split.
  - rewrite Ho. exact quaternion_from_euler_sxyz_pitch_PI.
  - rewrite build_pose_stamped_msg_live. cbn [fst]. intros Heq.
    injection Heq as Heq. rewrite <- Heq in Hp.
    cbn [pose pose_position px py pz] in Hp.
    change (self_hand pitching_world) with sample_hand in Hp.
    cbn in Hp. injection Hp as Hx _ _. lra.
Defined.

Lemma test_pose_fst_t (w1 w2 : World) :
  self_t w1 = self_t w2 -> fst (test_pose w1) = fst (test_pose w2).
Proof.
  intros Ht. rewrite !test_pose_unfold. cbn zeta. rewrite Ht.
  phase_cases; reflexivity.
Qed.

(** C10. With [test=True], two worlds that store the same time give
    messages of the same pose, whatever their hands and clocks. *)
Theorem test_pose_message_ignores_hand qfe (now1 now2 : Time)
        (w1 w2 : World) :
  self_t w1 = self_t w2 ->
  exists m1 m2,
    fst (build_pose_stamped_msg qfe now1 true w1) = Ok m1 /\
    fst (build_pose_stamped_msg qfe now2 true w2) = Ok m2 /\
    pose_position (pose m1) = pose_position (pose m2) /\
    orientation (pose m1) = orientation (pose m2).
Proof.
  intros Ht.
  destruct (test_pose_Ok w1) as [[[[x y] z] [[p yw] r]] Hw1].
  assert (H1 : fst (test_pose w1) = Ok ((x, y, z), (p, yw, r)))
    by (rewrite Hw1; reflexivity).
  assert (H2 : fst (test_pose w2) = Ok ((x, y, z), (p, yw, r)))
    by (rewrite <- (test_pose_fst_t w1 w2 Ht); exact H1).
  eexists. eexists.
  rewrite (build_pose_stamped_msg_test qfe now1 w1 _ _ _ _ _ _ H1).
  rewrite (build_pose_stamped_msg_test qfe now2 w2 _ _ _ _ _ _ H2).
  repeat split.
Qed.

Lemma test_pose_message_ignores_hand_witness :
  self_hand started_world <> self_hand tracking_world /\
  exists m1 m2,
    fst (build_pose_stamped_msg quaternion_from_euler_sxyz 1%Z true
           started_world) = Ok m1 /\
    fst (build_pose_stamped_msg quaternion_from_euler_sxyz 2%Z true
           tracking_world) = Ok m2 /\
    pose_position (pose m1) = pose_position (pose m2) /\
    orientation (pose m1) = orientation (pose m2).
Proof.
  split.
  - intros H. apply (f_equal hand_fingers) in H. discriminate H.
  - apply test_pose_message_ignores_hand. reflexivity.
Defined.

(** C8. A turn of the loop that no fault cuts short, in a state the running
    server reaches, publishes the joint-state message it built on the first
    channel and the pose message it built on the second, and nothing on the
    third; and no run of [start_transmit], however long and however it
    ends, publishes anything on the third. *)
Theorem two_of_three_channels qfe (tk : Tick) (env : list Tick) (w : World) :
  reachable qfe w -> fault tk = None ->
  (exists js ps w',
     iteration qfe tk w = (Ok tt, w') /\
     fst (build_joint_state_msg (now_js tk) w) = Ok js /\
     fst (build_pose_stamped_msg qfe (now_ps tk) true
            (snd (build_joint_state_msg (now_js tk) w))) = Ok ps /\
     js_pub w' = js_pub w ++ [js] /\
     ps_pub w' = ps_pub w ++ [ps] /\
     ts_pub w' = ts_pub w) /\
  ts_pub (snd (start_transmit qfe env w)) = ts_pub w.
Proof.
  intros Hr Hq. apply reachable_Inv in Hr. split.
  - destruct (iteration_quiet qfe tk w Hr Hq) as (js & ps & Hjs & Hps & Hit).
    exists js, ps. eexists. split; [exact Hit|].
    rewrite Hjs. cbn [fst snd]. rewrite Hps. cbn [fst].
    cbn [js_pub ps_pub ts_pub set_t push_ps push_js push_stdout].
    rewrite cache_names_js_pub, cache_names_ps_pub, cache_names_ts_pub.
    repeat split.
  - apply (start_transmit_stable (same ts_pub)).
Qed.

Lemma two_of_three_channels_witness :
  (exists js ps w',
     iteration quaternion_from_euler_sxyz quiet_tick started_world
       = (Ok tt, w') /\
     js_pub w' = [js] /\ ps_pub w' = [ps] /\ ts_pub w' = []) /\
  ts_pub (snd (start_transmit quaternion_from_euler_sxyz
                 [quiet_tick; interrupted_tick] started_world)) = [].
Proof.
  destruct (two_of_three_channels quaternion_from_euler_sxyz quiet_tick
              [quiet_tick; interrupted_tick] started_world)
    as [(js & ps & w' & Hit & _ & _ & Hjs & Hps & Hts) Hrun].
  - exists blank_world. apply rtc_refl.
  - reflexivity.
  - split; [|exact Hrun].
    exists js, ps, w'. split; [exact Hit|].
    split; [exact Hjs|]. split; [exact Hps|exact Hts].
Defined.

(** ** Interrupts *)

(** After any number of quiet turns, a keyboard interrupt in the body of
    the [try], nothing striking the handler or the next loop test: the loop
    ends and the sentinel is raised. *)
Lemma start_transmit_interrupt qfe (pre post : list Tick) (tk nxt : Tick)
      (s : Stmt) (w : World) :
  Inv w -> Forall quiet pre -> is_shutdown tk = false ->
  fault tk = Some (s, KeyboardInterrupt) ->
  outside tk = None -> outside nxt = None ->
  exists w' l,
    start_transmit qfe (pre ++ tk :: nxt :: post) w
    = (Raise (QuitMessageException "Quit message received from client"), w')
    /\ log w' = log w ++ l ++ [interrupt_detected; quit_sent]
    /\ Forall (fun entry => level entry = INFO) l.
Proof.
  intros HI Hpre Hs Hf Ho Hn.
  destruct (publish_loop_quiet_turns qfe pre w HI Hpre)
    as (w1 & HI1 & (l1 & Hl1 & Hi1) & Hrun).
  destruct (publish_loop_interrupted_turn qfe tk (nxt :: post) s w1 HI1 Hs
              (quiet_passes_test tk Ho) Hf) as (w2 & (l2 & Hl2 & Hi2) & Hturn).
  rewrite Ho in Hturn. rewrite (publish_loop_quitting _ _ _ _ Hn) in Hturn.
  exists (push_log quit_sent (push_log interrupt_detected w2)), (l1 ++ l2).
  split; [|split].
  - unfold start_transmit.
    rewrite (bind_Ok _ _ w (push_log interrupt_detected w2) tt);
      [reflexivity|].
    rewrite Hrun. exact Hturn.
  - cbn [log push_log]. rewrite Hl2, Hl1. rewrite <- !app_assoc. reflexivity.
  - apply Forall_app. split; assumption.
Qed.

(** A keyboard interrupt outside the body of the [try] (at the loop test of
    a turn, in the handler of an interrupted body, or at the loop test that
    follows the handler) comes out of [start_transmit] as it is. *)
Lemma start_transmit_interrupt_outside qfe (pre post : list Tick)
      (tk nxt : Tick) (s : Stmt) (w : World) :
  Inv w -> Forall quiet pre -> is_shutdown tk = false ->
  outside tk = Some (P_test, KeyboardInterrupt) \/
  fault tk = Some (s, KeyboardInterrupt) /\
    (outside tk = Some (P_log, KeyboardInterrupt) \/
     outside tk = Some (P_quit, KeyboardInterrupt)) \/
  fault tk = Some (s, KeyboardInterrupt) /\ outside tk = None /\
    is_shutdown nxt = false /\
    outside nxt = Some (P_test, KeyboardInterrupt) ->
  exists w' l,
    start_transmit qfe (pre ++ tk :: nxt :: post) w
    = (Raise KeyboardInterrupt, w')
    /\ log w' = log w ++ l
    /\ Forall (fun entry => level entry = INFO \/ entry = interrupt_detected)
         l.
Proof.
  intros HI Hpre Hs Hcase.
  destruct (publish_loop_quiet_turns qfe pre w HI Hpre)
    as (w1 & HI1 & (l1 & Hl1 & Hi1) & Hrun).
  assert (Hi1' : Forall (fun entry =>
                           level entry = INFO \/ entry = interrupt_detected)
                   l1)
    by (eapply Forall_impl; [exact Hi1|]; intros entry H; left; exact H).
  assert (Hraise : forall w',
             publish_loop qfe (tk :: nxt :: post) false w1
             = (Raise KeyboardInterrupt, w') ->
             start_transmit qfe (pre ++ tk :: nxt :: post) w
             = (Raise KeyboardInterrupt, w')).
  { intros w' H. unfold start_transmit. apply bind_Raise.
    rewrite Hrun. exact H. }
  destruct Hcase as [Ho|[[Hf Ho]|(Hf & Ho & Hsn & Hn)]].
  - exists w1, l1. split; [|split; assumption].
    apply Hraise. apply publish_loop_test_fault; assumption.
  - assert (Hpass : forall e, outside tk <> Some (P_test, e))
      by (intros e; destruct Ho as [-> | ->]; discriminate).
    destruct (publish_loop_interrupted_turn qfe tk (nxt :: post) s w1 HI1 Hs
                Hpass Hf) as (w2 & (l2 & Hl2 & Hi2) & Hturn).
    assert (Hi2' : Forall (fun entry =>
                             level entry = INFO \/ entry = interrupt_detected)
                     l2)
      by (eapply Forall_impl; [exact Hi2|]; intros entry H; left; exact H).
    destruct Ho as [Ho|Ho]; rewrite Ho in Hturn.
    + exists w2, (l1 ++ l2). split; [apply Hraise, Hturn|]. split.
      * rewrite Hl2, Hl1. symmetry. apply app_assoc.
      * apply Forall_app. split; assumption.
    + exists (push_log interrupt_detected w2), (l1 ++ l2 ++ [interrupt_detected]).
      split; [apply Hraise, Hturn|]. split.
      * cbn [log push_log]. rewrite Hl2, Hl1. rewrite <- !app_assoc.
        reflexivity.
      * apply Forall_app. split; [assumption|].
        apply Forall_app. split; [assumption|].
        constructor; [right; reflexivity|constructor].
  - destruct (publish_loop_interrupted_turn qfe tk (nxt :: post) s w1 HI1 Hs
                (quiet_passes_test tk Ho) Hf)
      as (w2 & (l2 & Hl2 & Hi2) & Hturn).
    assert (Hi2' : Forall (fun entry =>
                             level entry = INFO \/ entry = interrupt_detected)
                     l2)
      by (eapply Forall_impl; [exact Hi2|]; intros entry H; left; exact H).
    rewrite Ho in Hturn.
    rewrite (publish_loop_test_fault _ _ _ _ _ _ Hsn Hn) in Hturn.
    exists (push_log interrupt_detected w2), (l1 ++ l2 ++ [interrupt_detected]).
    split; [apply Hraise, Hturn|]. split.
    + cbn [log push_log]. rewrite Hl2, Hl1. rewrite <- !app_assoc.
      reflexivity.
    + apply Forall_app. split; [assumption|].
      apply Forall_app. split; [assumption|].
      constructor; [right; reflexivity|constructor].
Qed.

(** Any other exception in the body of the [try] comes out of
    [start_transmit] as it is. *)
Lemma start_transmit_fault qfe (pre post : list Tick) (tk : Tick)
      (s : Stmt) (e : exn) (w : World) :
  Inv w -> Forall quiet pre -> is_shutdown tk = false ->
  (forall e', outside tk <> Some (P_test, e')) ->
  fault tk = Some (s, e) -> e <> KeyboardInterrupt ->
  fst (start_transmit qfe (pre ++ tk :: post) w) = Raise e.
Proof.
  intros HI Hpre Hs Ho Hf He.
  destruct (publish_loop_quiet_turns qfe pre w HI Hpre)
    as (w1 & HI1 & _ & Hrun).
  pose proof (publish_loop_failed_turn qfe tk post s e w1 HI1 Hs Ho Hf He)
    as H.
  unfold start_transmit, bind. rewrite Hrun.
  destruct (publish_loop qfe (tk :: post) false w1) as [r w'].
  cbn in H. subst r. reflexivity.
Qed.

(** After any number of quiet turns, an exception at the loop test comes out
    of [start_transmit] as it is, before anything else is logged. *)
Lemma start_transmit_test_fault qfe (pre post : list Tick) (tk : Tick)
      (e : exn) (w : World) :
  Inv w -> Forall quiet pre -> is_shutdown tk = false ->
  outside tk = Some (P_test, e) ->
  exists w' l,
    start_transmit qfe (pre ++ tk :: post) w = (Raise e, w')
    /\ log w' = log w ++ l
    /\ Forall (fun entry => level entry = INFO) l.
Proof.
  intros HI Hpre Hs Ho.
  destruct (publish_loop_quiet_turns qfe pre w HI Hpre)
    as (w1 & HI1 & (l1 & Hl1 & Hi1) & Hrun).
  exists w1, l1. split; [|split; assumption].
  unfold start_transmit. apply bind_Raise. rewrite Hrun.
  apply publish_loop_test_fault; assumption.
Qed.

(** The world in which [main] enters [start_transmit]. *)
Lemma main_entry_Inv (w : World) :
  Inv (push_log (mkLog INFO "main" (Text "Press ^C to quit..."))
         (snd (on_init w))).
Proof. apply (stable_log (rel := inv_kept)), on_init_Inv. Qed.

Lemma main_entry_log (w : World) :
  log (push_log prompt (snd (on_init w))) = log w ++ [initialized; prompt].
Proof.
  cbn [log push_log].
  change (log (snd (on_init w))) with (log w ++ [initialized]).
  rewrite <- app_assoc. reflexivity.
Qed.

(** [main] once [start_transmit] has raised: the two clauses of its [try]
    statement, and the exceptions it has no clause for. *)
Lemma main_after_raise qfe (env : list Tick) (w w' : World) (e : exn) :
  start_transmit qfe env (push_log prompt (snd (on_init w))) = (Raise e, w') ->
  main qfe env w
  = match e with
    | QuitMessageException msg =>
        (Ok tt,
         push_log listener_end (push_log (mkLog ERROR "main" (Text msg)) w'))
    | KeyboardInterrupt =>
        (Ok tt, push_log listener_end (push_log interrupted_by_user w'))
    | _ => (Raise e, w')
    end.
Proof.
  intros H. unfold main.
  rewrite (bind_Ok _ _ w (snd (on_init w)) tt) by reflexivity.
  unfold LOG_v at 1. rewrite bind_modify.
  unfold try_except, bind at 1.
  change (push_log (mkLog INFO "main" (Text "Press ^C to quit..."))
            (snd (on_init w)))
    with (push_log prompt (snd (on_init w))).
  rewrite H. destruct e; reflexivity.
Qed.

(** C6. After any number of quiet turns, in a turn for which no shutdown
    is asked:
    - a keyboard interrupt that strikes a statement of the body of the
      [try], nothing striking the handler or the loop test after it, ends
      the loop: [start_transmit] raises [QuitMessageException], its last two
      log lines being the interrupt and the quit command; [main] catches
      that exception, logs its text as one line of the ERROR level, and ends
      normally once the listener is removed; whatever else the run logs is
      of the INFO level;
    - a keyboard interrupt that strikes outside the body of the [try] (at
      the loop test of the turn, in the handler of an interrupted body, or
      at the loop test after the handler) is not handled by the loop: it
      leaves [start_transmit] as [KeyboardInterrupt], no sentinel is raised
      and no quit line logged, and [main] logs one line, that the user
      interrupted, and ends normally;
    - any exception other than [KeyboardInterrupt] that strikes the body
      leaves [start_transmit] as it is, and leaves [main] too unless it is
      a [QuitMessageException]. *)
Theorem keyboard_interrupt_quits qfe (pre post : list Tick) (tk nxt : Tick)
        (s : Stmt) (w : World) :
  Forall quiet pre -> is_shutdown tk = false ->
  let env := pre ++ tk :: nxt :: post in
  (fault tk = Some (s, KeyboardInterrupt) ->
   outside tk = None -> outside nxt = None ->
   (forall w0, reachable qfe w0 ->
      exists w' l,
        start_transmit qfe env w0
        = (Raise (QuitMessageException "Quit message received from client"),
           w') /\
        log w' = log w0 ++ l ++ [interrupt_detected; quit_sent] /\
        Forall (fun entry => level entry = INFO) l) /\
   (exists w' l,
      main qfe env w = (Ok tt, w') /\
      log w' = log w ++ l ++
        [interrupt_detected; quit_sent; quit_received; listener_end] /\
      Forall (fun entry => level entry = INFO) l)) /\
  (outside tk = Some (P_test, KeyboardInterrupt) \/
   fault tk = Some (s, KeyboardInterrupt) /\
     (outside tk = Some (P_log, KeyboardInterrupt) \/
      outside tk = Some (P_quit, KeyboardInterrupt)) \/
   fault tk = Some (s, KeyboardInterrupt) /\ outside tk = None /\
     is_shutdown nxt = false /\
     outside nxt = Some (P_test, KeyboardInterrupt) ->
   (forall w0, reachable qfe w0 ->
      exists w' l,
        start_transmit qfe env w0 = (Raise KeyboardInterrupt, w') /\
        log w' = log w0 ++ l /\
        Forall (fun entry =>
                  level entry = INFO \/ entry = interrupt_detected) l) /\
   (exists w' l,
      main qfe env w = (Ok tt, w') /\
      log w' = log w ++ l ++ [interrupted_by_user; listener_end] /\
      Forall (fun entry =>
                level entry = INFO \/ entry = interrupt_detected) l)) /\
  (forall e,
     fault tk = Some (s, e) -> e <> KeyboardInterrupt ->
     (forall e', outside tk <> Some (P_test, e')) ->
     (forall w0, reachable qfe w0 ->
        fst (start_transmit qfe env w0) = Raise e) /\
     ((forall msg, e <> QuitMessageException msg) ->
      fst (main qfe env w) = Raise e)).
Proof.
  intros Hpre Hs env. split; [|split].
  - intros Hf Ho Hn. split.
    + intros w0 Hr. apply reachable_Inv in Hr.
      apply (start_transmit_interrupt qfe pre post tk nxt s w0 Hr Hpre Hs Hf
               Ho Hn).
    + destruct (start_transmit_interrupt qfe pre post tk nxt s _
                  (main_entry_Inv w) Hpre Hs Hf Ho Hn)
        as (w' & l & Hrun & Hlog & Hl).
      exists (push_log listener_end (push_log quit_received w')).
      exists ([initialized; prompt] ++ l).
      split; [|split].
      * apply (main_after_raise qfe env w w' _ Hrun).
      * cbn [log push_log]. rewrite Hlog.
        change (log (push_log (mkLog INFO "main" (Text "Press ^C to quit..."))
                       (snd (on_init w))))
          with (log (push_log prompt (snd (on_init w)))).
        rewrite main_entry_log. rewrite <- !app_assoc. reflexivity.
      * apply Forall_app. split; [repeat constructor|exact Hl].
  - intros Hcase. split.
    + intros w0 Hr. apply reachable_Inv in Hr.
      apply (start_transmit_interrupt_outside qfe pre post tk nxt s w0 Hr Hpre
               Hs Hcase).
    + destruct (start_transmit_interrupt_outside qfe pre post tk nxt s _
                  (main_entry_Inv w) Hpre Hs Hcase)
        as (w' & l & Hrun & Hlog & Hl).
      exists (push_log listener_end (push_log interrupted_by_user w')).
      exists ([initialized; prompt] ++ l).
      split; [|split].
      * apply (main_after_raise qfe env w w' _ Hrun).
      * cbn [log push_log]. rewrite Hlog.
        change (log (push_log (mkLog INFO "main" (Text "Press ^C to quit..."))
                       (snd (on_init w))))
          with (log (push_log prompt (snd (on_init w)))).
        rewrite main_entry_log. rewrite <- !app_assoc. reflexivity.
      * apply Forall_app. split; [|exact Hl].
        repeat constructor; left; reflexivity.
  - intros e Hf He Ho. split.
    + intros w0 Hr. apply reachable_Inv in Hr.
      apply (start_transmit_fault qfe pre (nxt :: post) tk s e w0 Hr Hpre Hs Ho
               Hf He).
    + intros Hq.
      pose proof (start_transmit_fault qfe pre (nxt :: post) tk s e _
                    (main_entry_Inv w) Hpre Hs Ho Hf He) as H.
      fold env in H.
      rewrite (main_after_raise qfe env w
                 (snd (start_transmit qfe env
                         (push_log prompt (snd (on_init w))))) e).
      * destruct e; try reflexivity; [contradiction|].
        destruct (Hq msg). reflexivity.
      * change (push_log (mkLog INFO "main" (Text "Press ^C to quit..."))
                  (snd (on_init w)))
          with (push_log prompt (snd (on_init w))) in H.
        rewrite (run_pair (start_transmit qfe env)). rewrite H. reflexivity.
Qed.

(** One run for each part: an interrupt while the second message of a
    turn with a frame is published; interrupts at the loop test, in the
    handler before and after its log line, and at the loop test after the
    handler; a failure of the first publisher. *)
Lemma keyboard_interrupt_quits_witness :
  (exists w' l,
     main quaternion_from_euler_sxyz
       [quiet_tick; framed_interrupted_tick; quiet_tick] blank_world
     = (Ok tt, w') /\
     log w' = l ++
       [interrupt_detected; quit_sent; quit_received; listener_end] /\
     Forall (fun entry => level entry = INFO) l) /\
  fst (start_transmit quaternion_from_euler_sxyz
         [quiet_tick; test_interrupted_tick; quiet_tick] started_world)
  = Raise KeyboardInterrupt /\
  fst (start_transmit quaternion_from_euler_sxyz
         [quiet_tick; log_interrupted_tick; quiet_tick] started_world)
  = Raise KeyboardInterrupt /\
  fst (start_transmit quaternion_from_euler_sxyz
         [quiet_tick; quit_interrupted_tick; quiet_tick] started_world)
  = Raise KeyboardInterrupt /\
  fst (start_transmit quaternion_from_euler_sxyz
         [quiet_tick; interrupted_tick; test_interrupted_tick] started_world)
  = Raise KeyboardInterrupt /\
  (exists w' l,
     main quaternion_from_euler_sxyz
       [quiet_tick; quit_interrupted_tick; quiet_tick] blank_world
     = (Ok tt, w') /\
     log w' = l ++ [interrupted_by_user; listener_end]) /\
  fst (start_transmit quaternion_from_euler_sxyz
         [quiet_tick; failing_tick; quiet_tick] started_world)
  = Raise (ExternalError "publish") /\
  fst (main quaternion_from_euler_sxyz
         [quiet_tick; failing_tick; quiet_tick] blank_world)
  = Raise (ExternalError "publish").
Proof.
  assert (Hpre : Forall quiet [quiet_tick]) by (repeat constructor).
  assert (Hr : reachable quaternion_from_euler_sxyz started_world)
    by (exists blank_world; apply rtc_refl).
  assert (Hout : forall (tk nxt : Tick),
             is_shutdown tk = false ->
             outside tk = Some (P_test, KeyboardInterrupt) \/
             fault tk = Some (S_sleep, KeyboardInterrupt) /\
               (outside tk = Some (P_log, KeyboardInterrupt) \/
                outside tk = Some (P_quit, KeyboardInterrupt)) \/
             fault tk = Some (S_sleep, KeyboardInterrupt) /\
               outside tk = None /\ is_shutdown nxt = false /\
               outside nxt = Some (P_test, KeyboardInterrupt) ->
             fst (start_transmit quaternion_from_euler_sxyz
                    [quiet_tick; tk; nxt] started_world)
             = Raise KeyboardInterrupt).
  { intros tk nxt Hs Hcase.
    destruct (keyboard_interrupt_quits quaternion_from_euler_sxyz
                [quiet_tick] [] tk nxt S_sleep blank_world Hpre Hs)
      as (_ & H & _).
    destruct (proj1 (H Hcase) started_world Hr) as (w' & l & Hrun & _).
    cbn [app] in Hrun. rewrite Hrun. reflexivity. }
  split; [|split; [|split; [|split; [|split; [|split; [|split]]]]]].
  - destruct (keyboard_interrupt_quits quaternion_from_euler_sxyz
                [quiet_tick] [] framed_interrupted_tick quiet_tick S_pub_ps
                blank_world Hpre eq_refl) as (H & _).
    destruct (H eq_refl eq_refl eq_refl) as (_ & w' & l & Hrun & Hlog & Hl).
    exists w', l. split; [exact Hrun|]. split; [exact Hlog|exact Hl].
  - apply Hout; [reflexivity|]. left. reflexivity.
  - apply Hout; [reflexivity|]. right. left.
    split; [reflexivity|]. left. reflexivity.
  - apply Hout; [reflexivity|]. right. left.
    split; [reflexivity|]. right. reflexivity.
  - apply Hout; [reflexivity|]. right. right. repeat split.
  - destruct (keyboard_interrupt_quits quaternion_from_euler_sxyz
                [quiet_tick] [] quit_interrupted_tick quiet_tick S_sleep
                blank_world Hpre eq_refl) as (_ & H & _).
    destruct H as (_ & w' & l & Hrun & Hlog & _).
    { right. left. split; [reflexivity|]. right. reflexivity. }
    exists w', l. split; [exact Hrun|exact Hlog].
  - destruct (keyboard_interrupt_quits quaternion_from_euler_sxyz
                [quiet_tick] [] failing_tick quiet_tick S_pub_js
                blank_world Hpre eq_refl) as (_ & _ & H).
    destruct (H (ExternalError "publish") eq_refl) as (Hst & _);
      [discriminate|intros e'; discriminate|].
    exact (Hst started_world Hr).
  - destruct (keyboard_interrupt_quits quaternion_from_euler_sxyz
                [quiet_tick] [] failing_tick quiet_tick S_pub_js
                blank_world Hpre eq_refl) as (_ & _ & H).
    destruct (H (ExternalError "publish") eq_refl) as (_ & Hm);
      [discriminate|intros e'; discriminate|].
    apply Hm. intros msg. discriminate.
Defined.

(** C6, a keyboard interrupt that is not handled: after one quiet turn the
    interrupt strikes the loop test; [start_transmit] raises
    [KeyboardInterrupt] and no [QuitMessageException], it logs nothing of
    the interrupt, and [main] logs that the user interrupted and not the
    quit message. *)
Lemma interrupt_at_loop_test_is_not_handled :
  fst (start_transmit quaternion_from_euler_sxyz
         [quiet_tick; test_interrupted_tick] started_world)
  = Raise KeyboardInterrupt /\
  (forall msg,
     fst (start_transmit quaternion_from_euler_sxyz
            [quiet_tick; test_interrupted_tick] started_world)
     <> Raise (QuitMessageException msg)) /\
  exists w' l,
    main quaternion_from_euler_sxyz [quiet_tick; test_interrupted_tick]
      blank_world = (Ok tt, w') /\
    log w' = l ++ [interrupted_by_user; listener_end] /\
    Forall (fun entry => level entry = INFO) l.
Proof.
  assert (Hpre : Forall quiet [quiet_tick]) by (repeat constructor).
  assert (Hst : fst (start_transmit quaternion_from_euler_sxyz
                       [quiet_tick; test_interrupted_tick] started_world)
                = Raise KeyboardInterrupt).
  { destruct (start_transmit_test_fault quaternion_from_euler_sxyz
                [quiet_tick] [] test_interrupted_tick KeyboardInterrupt
                started_world (on_init_Inv blank_world) Hpre eq_refl eq_refl)
      as (w' & l & Hrun & _).
    cbn [app] in Hrun. rewrite Hrun. reflexivity. }
  split; [exact Hst|]. split; [intros msg; rewrite Hst; discriminate|].
  destruct (start_transmit_test_fault quaternion_from_euler_sxyz
              [quiet_tick] [] test_interrupted_tick KeyboardInterrupt _
              (main_entry_Inv blank_world) Hpre eq_refl eq_refl)
    as (w' & l & Hrun & Hlog & Hl).
  exists (push_log listener_end (push_log interrupted_by_user w')).
  exists ([initialized; prompt] ++ l). split; [|split].
  - apply (main_after_raise quaternion_from_euler_sxyz
             [quiet_tick; test_interrupted_tick] blank_world w' _ Hrun).
  - cbn [log push_log]. rewrite Hlog. rewrite <- !app_assoc. reflexivity.
  - apply Forall_app. split; [repeat constructor|exact Hl].
Defined.

(** * More of the code *)

(** ** [on_frame] *)

Lemma finger_slot_inj (ty1 ty2 : FingerType) :
  finger_slot ty1 = finger_slot ty2 -> ty1 = ty2.
Proof. destruct ty1, ty2; try reflexivity; discriminate. Qed.

Lemma store_loop_run {A} (g : nat -> Finger -> A * Finger) (l : list Finger)
      (w : World) :
  (forall i f, snd (g i f) = f) ->
  for_each (imap g l)
    (fun '(i, finger) (_ : unit) =>
       selected_finger <-
         lift (match finger_type finger with
               | TYPE_THUMB => finger_name_at 0
               | TYPE_PINKY => finger_name_last
               | ty => finger_name_at (type_value ty)
               end) ;;
       modify (fun w =>
                 set_fingers
                   (<[selected_finger := finger]> (self_fingers w)) w))
    tt w
  = (Ok tt, store_fingers l w).
Proof.
  revert g w. induction l as [|f l IH]; intros g w Hg; [reflexivity|].
  cbn [imap for_each store_fingers foldl].
  pose proof (Hg 0%nat f) as Hf. destruct (g 0%nat f) as [i f']. cbn in Hf.
  subst f'.
  rewrite (bind_Ok _ _ w
             (set_fingers (<[finger_slot (finger_type f) := f]>
                             (self_fingers w)) w) tt).
  - apply IH. intros j x. apply Hg.
  - destruct f as [ty bs]. destruct ty; reflexivity.
Qed.

(** Storing fingers touches nothing but [self.fingers]. *)
Lemma store_fingers_same {B} (proj : World -> B) (l : list Finger)
      (w : World) :
  (forall m w, proj (set_fingers m w) = proj w) ->
  proj (store_fingers l w) = proj w.
Proof.
  intros Hp. revert w. induction l as [|x l IH]; intros w; [reflexivity|].
  cbn [store_fingers foldl]. etransitivity; [apply IH|apply Hp].
Qed.

Lemma show_data_hand_run (w : World) :
  show_data ["hand"] w = (Ok tt, push_log (hand_line (self_hand w)) w).
Proof. reflexivity. Qed.

(** [on_frame] as one update of the world. *)
Lemma on_frame_run (f : Frame) (w : World) :
  on_frame f w =
  match frame_hands f with
  | [] => (Ok tt, push_log (hand_line (self_hand w)) w)
  | h :: _ =>
      (Ok tt,
       push_log (hand_line h)
         (store_fingers
            (sorted (fun x => type_value (finger_type x)) (hand_fingers h))
            (set_hand h w)))
  end.
Proof.
  unfold on_frame. destruct (frame_hands f) as [|h rest].
  - rewrite (bind_Ok _ _ w w tt) by reflexivity. apply show_data_hand_run.
  - assert (Hloop :
      forall l,
        match l with
        | [] => ret tt
        | _ =>
            for_each
              (enumerate (sorted (fun x => type_value (finger_type x)) l))
              (fun '(i, finger) (_ : unit) =>
                 selected_finger <-
                   lift (match finger_type finger with
                         | TYPE_THUMB => finger_name_at 0
                         | TYPE_PINKY => finger_name_last
                         | ty => finger_name_at (type_value ty)
                         end) ;;
                 modify (fun w =>
                           set_fingers
                             (<[selected_finger := finger]>
                                (self_fingers w)) w))
              tt
        end (set_hand h w)
        = (Ok tt,
           store_fingers (sorted (fun x => type_value (finger_type x)) l)
             (set_hand h w))).
    { intros l. destruct l as [|x l]; [reflexivity|].
      apply store_loop_run. reflexivity. }
    rewrite (bind_Ok _ _ w
               (store_fingers
                  (sorted (fun x => type_value (finger_type x))
                          (hand_fingers h)) (set_hand h w)) tt).
    + rewrite show_data_hand_run.
      rewrite (store_fingers_same self_hand) by reflexivity. reflexivity.
    + rewrite bind_modify. exact (Hloop (hand_fingers h)).
Qed.

(** Python's [sorted] is stable: among the fingers of one type the order of
    the frame is kept. *)
Lemma insert_by_type_filter (ty : FingerType) (a : Finger) (l : list Finger) :
  filter (fun x => finger_type x = ty)
         (insert_by (fun x => type_value (finger_type x)) a l)
  = filter (fun x => finger_type x = ty) (a :: l).
Proof.
  induction l as [|b l IH]; [reflexivity|].
  cbn [insert_by].
  destruct (Nat.leb_spec (type_value (finger_type a))
                         (type_value (finger_type b))) as [Hle|Hlt];
    [reflexivity|].
  rewrite (filter_cons _ b), IH, !filter_cons.
  destruct (decide (finger_type a = ty)) as [Ha|Ha];
    destruct (decide (finger_type b = ty)) as [Hb|Hb]; try reflexivity.
  rewrite Ha, Hb in Hlt. lia.
Qed.

Lemma sorted_type_filter (ty : FingerType) (l : list Finger) :
  filter (fun x => finger_type x = ty)
         (sorted (fun x => type_value (finger_type x)) l)
  = filter (fun x => finger_type x = ty) l.
Proof.
  induction l as [|a l IH]; [reflexivity|].
  cbn [sorted foldr]. rewrite insert_by_type_filter.
  rewrite !filter_cons.
  change (foldr (insert_by (fun x => type_value (finger_type x))) [] l)
    with (sorted (fun x => type_value (finger_type x)) l).
  rewrite IH. reflexivity.
Qed.

(** After the loop, the slot of a type holds the last finger of that type,
    or what it held before when there is none. *)
Lemma store_fingers_lookup (ty : FingerType) (l : list Finger) (w : World) :
  self_fingers (store_fingers l w) !! finger_slot ty
  = match last (filter (fun x => finger_type x = ty) l) with
    | Some x => Some x
    | None => self_fingers w !! finger_slot ty
    end.
Proof.
  revert w. induction l as [|a l IH]; intros w; [reflexivity|].
  cbn [store_fingers foldl].
  change (foldl _ ?w0 l) with (store_fingers l w0). rewrite IH.
  rewrite filter_cons. cbn [self_fingers set_fingers].
  destruct (decide (finger_type a = ty)) as [Ha|Ha].
  - rewrite last_cons.
    destruct (last (filter _ l)); [reflexivity|].
    rewrite Ha. apply lookup_insert_eq.
  - destruct (last (filter _ l)); [reflexivity|].
    apply lookup_insert_ne. intros H. apply Ha, finger_slot_inj, H.
Qed.

(** Every key the loop writes is one of the five names. *)
Lemma store_fingers_dom (l : list Finger) (w : World) :
  dom (self_fingers w) = list_to_set FINGER_NAMES ->
  dom (self_fingers (store_fingers l w)) = list_to_set FINGER_NAMES.
Proof.
  revert w. induction l as [|a l IH]; intros w Hw; [exact Hw|].
  cbn [store_fingers foldl]. apply IH. cbn [self_fingers set_fingers].
  rewrite dom_insert_L, Hw.
  assert (Hin : finger_slot (finger_type a)
                ∈ (list_to_set FINGER_NAMES : gset string)).
  { apply elem_of_list_to_set, list_elem_of_In.
    destruct (finger_type a); cbn; tauto. }
  apply subseteq_union_1_L, singleton_subseteq_l, Hin.
Qed.

(** X1. A frame without a hand changes nothing of the server but its log:
    [on_frame] returns, and the world is the old one with one more line, the
    data of the hand kept from before. *)
Theorem on_frame_without_hand (f : Frame) (w : World) :
  frame_hands f = [] ->
  on_frame f w = (Ok tt, push_log (hand_line (self_hand w)) w).
Proof. intros Hf. rewrite on_frame_run, Hf. reflexivity. Qed.

Lemma on_frame_without_hand_witness :
  on_frame (mkFrame []) tracking_world
  = (Ok tt, push_log (hand_line sample_hand) tracking_world).
Proof. exact (on_frame_without_hand (mkFrame []) tracking_world eq_refl). Defined.

(** X2. A frame with a hand: [on_frame] returns; the first hand of the
    frame becomes [self.hand]; for each finger type the entry of
    [self.fingers] under that type's name is the last finger of that type
    the hand lists, or the entry kept from before when the hand lists
    none; one line with the new hand's data is logged; the stored time, the
    joint names and the three channels are as before. *)
Theorem on_frame_tracks_hand (f : Frame) (h : Hand) (rest : list Hand)
        (w : World) (ty : FingerType) :
  frame_hands f = h :: rest ->
  let w' := snd (on_frame f w) in
  fst (on_frame f w) = Ok tt /\
  self_hand w' = h /\
  self_fingers w' !! finger_slot ty
  = match last (filter (fun x => finger_type x = ty) (hand_fingers h)) with
    | Some x => Some x
    | None => self_fingers w !! finger_slot ty
    end /\
  log w' = log w ++ [hand_line h] /\
  self_t w' = self_t w /\
  self_joint_names w' = self_joint_names w /\
  pubs w' = pubs w.
Proof.
  intros Hf w'. unfold w'. clear w'. rewrite on_frame_run, Hf.
  cbn [fst snd]. split; [reflexivity|].
  cbn [self_hand self_fingers log self_t self_joint_names pubs push_log
       js_pub ps_pub ts_pub].
  split; [|split; [|split; [|split; [|split]]]].
  - rewrite (store_fingers_same self_hand) by reflexivity. reflexivity.
  - rewrite store_fingers_lookup, sorted_type_filter. reflexivity.
  - rewrite (store_fingers_same log) by reflexivity. reflexivity.
  - rewrite (store_fingers_same self_t) by reflexivity. reflexivity.
  - rewrite (store_fingers_same self_joint_names) by reflexivity. reflexivity.
  - unfold pubs. cbn [js_pub ps_pub ts_pub push_log].
    rewrite (store_fingers_same js_pub), (store_fingers_same ps_pub),
      (store_fingers_same ts_pub) by reflexivity.
    reflexivity.
Qed.

Lemma on_frame_tracks_hand_witness :
  self_fingers tracking_world !! "index"
  = Some (mkFinger TYPE_INDEX
            [mkBone (mkVector 0 0 (-1) (1 / 9) (1 / 10) (1 / 11))]) /\
  self_fingers tracking_world !! "thumb" = Some Leap_Finger.
Proof.
  split.
  - exact (proj1 (proj2 (proj2
             (on_frame_tracks_hand sample_frame sample_hand [] started_world
                TYPE_INDEX eq_refl)))).
  - exact (proj1 (proj2 (proj2
             (on_frame_tracks_hand sample_frame sample_hand [] started_world
                TYPE_THUMB eq_refl)))).
Defined.

(** ** Who writes what *)

Lemma build_joint_state_msg_tracking (now : Time) :
  preserves (same tracking) (build_joint_state_msg now).
Proof.
  intros w. rewrite build_joint_state_msg_world. unfold same, tracking.
  rewrite cache_names_fingers. unfold cache_names.
  destruct (decide _); reflexivity.
Qed.

Lemma build_pose_stamped_msg_tracking qfe (now : Time) (test : bool) :
  preserves (same tracking) (build_pose_stamped_msg qfe now test).
Proof.
  unfold build_pose_stamped_msg. structural.
  apply test_pose_preserves; apply _.
Qed.

Lemma iteration_tracking qfe (tk : Tick) :
  preserves (same tracking) (iteration qfe tk).
Proof.
  unfold iteration.
  repeat first [apply at_stmt_preserves; [apply _|] | structural_step];
    auto with frame.
  - apply build_joint_state_msg_tracking.
  - apply build_pose_stamped_msg_tracking.
Qed.

Lemma turn_tracking qfe (tk : Tick) : preserves (same tracking) (turn qfe tk).
Proof.
  unfold turn.
  repeat first [apply at_place_preserves; [apply _|] | structural_step];
    auto with frame.
  apply iteration_tracking.
Qed.

(** X3. The hand and the fingers are only read by the loop: a turn of the
    loop, whole or cut short by any exception, and each of the two
    builders leave [self.hand] and [self.fingers] as they were, in every
    world. *)
Theorem loop_only_reads_tracking qfe (tk : Tick) (now : Time) (test : bool)
        (w : World) :
  tracking (snd (turn qfe tk w)) = tracking w /\
  tracking (snd (build_joint_state_msg now w)) = tracking w /\
  tracking (snd (build_pose_stamped_msg qfe now test w)) = tracking w.
Proof.
  split; [|split].
  - apply turn_tracking.
  - apply build_joint_state_msg_tracking.
  - apply build_pose_stamped_msg_tracking.
Qed.

Lemma show_data_pubs (what : list string) :
  preserves (same pubs) (show_data what).
Proof. unfold show_data. structural. Qed.

Lemma build_joint_state_msg_pubs (now : Time) :
  preserves (same pubs) (build_joint_state_msg now).
Proof.
  intros w. rewrite build_joint_state_msg_world. unfold same, pubs.
  rewrite cache_names_js_pub, cache_names_ps_pub, cache_names_ts_pub.
  reflexivity.
Qed.

Lemma build_pose_stamped_msg_pubs qfe (now : Time) (test : bool) :
  preserves (same pubs) (build_pose_stamped_msg qfe now test).
Proof.
  unfold build_pose_stamped_msg. structural.
  apply test_pose_preserves; apply _.
Qed.

Lemma on_frame_pubs (f : Frame) : preserves (same pubs) (on_frame f).
Proof. unfold on_frame. structural. all: apply show_data_pubs. Qed.

(** X4. Nothing is published outside the loop body: [on_frame],
    [show_data] and the two builders leave the three channels as they
    were, in every world and whatever they return. *)
Theorem only_the_loop_publishes qfe (f : Frame) (what : list string)
        (now : Time) (test : bool) (w : World) :
  pubs (snd (on_frame f w)) = pubs w /\
  pubs (snd (show_data what w)) = pubs w /\
  pubs (snd (build_joint_state_msg now w)) = pubs w /\
  pubs (snd (build_pose_stamped_msg qfe now test w)) = pubs w.
Proof.
  split; [|split; [|split]].
  - apply on_frame_pubs.
  - apply show_data_pubs.
  - apply build_joint_state_msg_pubs.
  - apply build_pose_stamped_msg_pubs.
Qed.

(** ** The keys of [self.fingers] *)

Lemma on_init_dom (w : World) :
  dom (self_fingers (snd (on_init w))) = list_to_set FINGER_NAMES.
Proof.
  change (self_fingers (snd (on_init w)))
    with (list_to_map
            (map (fun i => (nth i FINGER_NAMES "", Leap_Finger)) (seq 0 5))
          : gmap string Finger).
  rewrite dom_list_to_map_L. reflexivity.
Qed.

Lemma tracking_fingers (w w' : World) :
  tracking w' = tracking w -> self_fingers w' = self_fingers w.
Proof. intros H. exact (f_equal snd H). Qed.

Lemma step_dom qfe (w w' : World) :
  step qfe w w' ->
  dom (self_fingers w) = list_to_set FINGER_NAMES ->
  dom (self_fingers w') = list_to_set FINGER_NAMES.
Proof.
  intros [f w0|tk w0|now w0|now test w0] Hd.
  - rewrite on_frame_run. destruct (frame_hands f) as [|h rest]; [exact Hd|].
    cbn [snd self_fingers push_log]. apply store_fingers_dom. exact Hd.
  - rewrite (tracking_fingers _ _ (turn_tracking qfe tk w0)). exact Hd.
  - rewrite (tracking_fingers _ _ (build_joint_state_msg_tracking now w0)).
    exact Hd.
  - rewrite (tracking_fingers _ _
               (build_pose_stamped_msg_tracking qfe now test w0)).
    exact Hd.
Qed.

(** X5. In every state the running server reaches, the keys of
    [self.fingers] are exactly the five finger names: no frame adds a key
    and none is ever removed. *)
Theorem fingers_keys_are_the_five_names qfe (w : World) (k : string) :
  reachable qfe w ->
  is_Some (self_fingers w !! k) <-> k ∈ FINGER_NAMES.
Proof.
  intros [w0 Hsteps].
  assert (Hd : dom (self_fingers w) = list_to_set FINGER_NAMES).
  { pose proof (on_init_dom w0) as H0. revert H0.
    induction Hsteps as [w1|w1 w2 w3 H12 _ IH]; intros H1; [exact H1|].
    apply IH, (step_dom qfe w1 w2 H12 H1). }
  rewrite <- elem_of_dom, Hd. apply elem_of_list_to_set.
Qed.

Lemma fingers_keys_are_the_five_names_witness :
  is_Some (self_fingers tracking_world !! "ring") /\
  self_fingers tracking_world !! "palm" = None.
Proof.
  assert (Hr : reachable quaternion_from_euler_sxyz tracking_world).
  { exists blank_world. apply rtc_once.
    apply (step_frame _ sample_frame started_world). }
  split.
  - apply (fingers_keys_are_the_five_names _ _ "ring" Hr).
    apply list_elem_of_In. cbn. tauto.
  - apply eq_None_not_Some. intros H.
    apply (fingers_keys_are_the_five_names _ _ "palm" Hr) in H.
    apply list_elem_of_In in H. cbn in H.
    repeat (destruct H as [H|H]; [discriminate H|]). exact H.
Defined.

(** ** More of [build_joint_state_msg] *)

(** The builder returns what it returns once the names are cached. *)
Lemma build_joint_state_msg_after_cache (now : Time) (w : World) :
  fst (build_joint_state_msg now w)
  = fst (build_joint_state_msg now (cache_names w)).
Proof.
  unfold build_joint_state_msg. rewrite !bind_get.
  destruct (decide (self_joint_names (cache_names w) = [])) as [E|_];
    [destruct (cache_names_nonempty w E)|].
  rewrite (bind_Ok (ret tt) _ (cache_names w) (cache_names w) tt)
    by reflexivity.
  unfold cache_names. destruct (decide (self_joint_names w = [])) as [E|E].
  - rewrite (bind_Ok _ _ w
               (push_log
                  (mkLog INFO "start_transmit"
                     (JointsText joint_names_comprehension))
                  (set_joint_names joint_names_comprehension w)) tt)
      by reflexivity.
    reflexivity.
  - rewrite (bind_Ok (ret tt) _ w w tt) by reflexivity. reflexivity.
Qed.

(** X6. In every state the running server reaches, names and values of
    the finger joints are aligned: for the finger stored under the name at
    index [fi] of [FINGER_NAMES] and the bone at index [b] of
    [FINGER_BONES], the entries 3 + 12 fi + 3 b and the two after it are
    named finger.bone.roll, .pitch, .yaw and carry the roll, pitch and yaw
    of the direction of [finger.bone(b)]. *)
Theorem finger_joints_aligned qfe (now : Time) (w : World) :
  reachable qfe w ->
  exists msg,
    fst (build_joint_state_msg now w) = Ok msg /\
    forall (fi b : nat) (fname bname : string) (finger : Finger),
      FINGER_NAMES !! fi = Some fname ->
      FINGER_BONES !! b = Some bname ->
      self_fingers w !! fname = Some finger ->
      let i := (3 + 12 * fi + 3 * b)%nat in
      let d := bone_direction (bone finger b) in
      name msg !! i = Some (fname +:+ "." +:+ bname +:+ ".roll") /\
      position msg !! i = Some (vroll d) /\
      name msg !! S i = Some (fname +:+ "." +:+ bname +:+ ".pitch") /\
      position msg !! S i = Some (vpitch d) /\
      name msg !! S (S i) = Some (fname +:+ "." +:+ bname +:+ ".yaw") /\
      position msg !! S (S i) = Some (vyaw d).
Proof.
  intros Hr. apply reachable_Inv in Hr.
  destruct (build_joint_state_msg_Inv now w Hr)
    as (f0 & f1 & f2 & f3 & f4 & H0 & H1 & H2 & H3 & H4 & Hjs).
  eexists. split; [rewrite Hjs; reflexivity|].
  intros fi b fname bname finger Hfi Hb Hf.
  unfold FINGER_NAMES in Hfi. unfold FINGER_BONES in Hb.
  repeat match type of Hfi with
         | (_ :: _) !! ?n = _ => destruct n as [|?]; simpl in Hfi
         end;
    try discriminate Hfi; injection Hfi as <-;
    repeat match type of Hb with
           | (_ :: _) !! ?n = _ => destruct n as [|?]; simpl in Hb
           end;
    try discriminate Hb; injection Hb as <-;
    match type of Hf with
    | self_fingers w !! ?k = _ =>
        match goal with
        | Hk : self_fingers w !! k = Some _ |- _ =>
            rewrite Hk in Hf; injection Hf as <-
        end
    end;
    repeat split.
Qed.

Lemma finger_joints_aligned_witness :
  exists msg,
    fst (build_joint_state_msg 7%Z tracking_world) = Ok msg /\
    name msg !! 15%nat = Some "index.meta.roll" /\
    position msg !! 15%nat = Some (1 / 11)%R /\
    position msg !! 16%nat = Some (1 / 9)%R /\
    position msg !! 17%nat = Some (1 / 10)%R.
Proof.
  destruct (finger_joints_aligned quaternion_from_euler_sxyz 7%Z
              tracking_world) as (msg & Hmsg & Hall).
  - exists blank_world. apply rtc_once.
    apply (step_frame _ sample_frame started_world).
  - exists msg. split; [exact Hmsg|].
    destruct (Hall 1%nat 0%nat "index" "meta"
                (mkFinger TYPE_INDEX
                   [mkBone (mkVector 0 0 (-1) (1 / 9) (1 / 10) (1 / 11))])
                eq_refl eq_refl eq_refl)
      as (Hn & Hr & _ & Hp & _ & Hy).
    split; [exact Hn|]. split; [exact Hr|]. split; [exact Hp|exact Hy].
Defined.

(** X7. The joint-state message is a function of the tracking data: two
    reachable worlds with the same hand and the same fingers give, at the
    same clock reading, the same message, whatever their stored time, log
    and channels. *)
Theorem joint_state_of_tracking_only qfe (now : Time) (w1 w2 : World) :
  reachable qfe w1 -> reachable qfe w2 ->
  tracking w1 = tracking w2 ->
  exists msg,
    fst (build_joint_state_msg now w1) = Ok msg /\
    fst (build_joint_state_msg now w2) = Ok msg.
Proof.
  intros Hr1 Hr2 Ht. apply reachable_Inv in Hr1, Hr2.
  destruct (build_joint_state_msg_Inv now w1 Hr1)
    as (f0 & f1 & f2 & f3 & f4 & H0 & H1 & H2 & H3 & H4 & Hjs1).
  destruct (build_joint_state_msg_Inv now w2 Hr2)
    as (g0 & g1 & g2 & g3 & g4 & G0 & G1 & G2 & G3 & G4 & Hjs2).
  pose proof (f_equal fst Ht) as Hh. pose proof (f_equal snd Ht) as Hf.
  cbn [fst snd tracking] in Hh, Hf.
  rewrite <- Hf in G0, G1, G2, G3, G4.
  eexists. split; [rewrite Hjs1; reflexivity|].
  rewrite Hjs2. cbn [fst]. rewrite <- Hh. congruence.
Qed.

Lemma joint_state_of_tracking_only_witness :
  self_t (snd (turn quaternion_from_euler_sxyz quiet_tick tracking_world))
  <> self_t tracking_world /\
  exists msg,
    fst (build_joint_state_msg 7%Z tracking_world) = Ok msg /\
    fst (build_joint_state_msg 7%Z
           (snd (turn quaternion_from_euler_sxyz quiet_tick tracking_world)))
    = Ok msg.
Proof.
  assert (Hr : reachable quaternion_from_euler_sxyz tracking_world).
  { exists blank_world. apply rtc_once.
    apply (step_frame _ sample_frame started_world). }
  assert (Hr' : reachable quaternion_from_euler_sxyz
                  (snd (turn quaternion_from_euler_sxyz quiet_tick
                          tracking_world))).
  { destruct Hr as [w0 Hs]. exists w0.
    eapply rtc_r; [exact Hs|apply step_turn]. }
  split.
  - destruct (iteration_quiet quaternion_from_euler_sxyz quiet_tick
                tracking_world (reachable_Inv _ _ Hr) eq_refl)
      as (js & ps & _ & _ & Hit).
    unfold turn, try_except. rewrite (bind_Ok _ _ _ _ _ Hit).
    cbn [snd self_t set_t ret].
    change (self_t tracking_world) with 0%R. lra.
  - apply (joint_state_of_tracking_only quaternion_from_euler_sxyz 7%Z
             tracking_world _ Hr Hr').
    symmetry. apply turn_tracking.
Defined.

(** Runs the first half of a [bind] under [fst], whether it returns or
    raises. *)
Ltac run_fst :=
  match goal with
  | |- fst (bind ?m ?k ?w) = _ =>
      let r := eval lazy in (m w) in
      match r with
      | (Ok ?a, ?w') => change (bind m k w) with (k a w'); cbv beta iota
      | (Raise ?e, ?w') =>
          match type of k with
          | _ -> M ?B => change (bind m k w) with (@raise B e w')
          end
      end
  end.

Lemma finger_list_KeyError (w : World) (k : string) :
  k ∈ FINGER_NAMES -> self_fingers w !! k = None ->
  exists k',
    k' ∈ FINGER_NAMES /\ self_fingers w !! k' = None /\
    map_M (fun '(i, finger_name) =>
             w <- get ;;
             finger <- lift (getitem (self_fingers w) finger_name) ;;
             ret (i, finger_name, finger))
          (enumerate FINGER_NAMES) w
    = (Raise (KeyError k'), w).
Proof.
  intros Hin Hk.
  cbv [enumerate FINGER_NAMES imap compose map_M bind get lift ret getitem].
  destruct (self_fingers w !! "thumb") as [f0|] eqn:H0; cbv beta iota;
    [|exists "thumb"; repeat split; [apply list_elem_of_In; cbn; tauto|exact H0]].
  destruct (self_fingers w !! "index") as [f1|] eqn:H1; cbv beta iota;
    [|exists "index"; repeat split; [apply list_elem_of_In; cbn; tauto|exact H1]].
  destruct (self_fingers w !! "middle") as [f2|] eqn:H2; cbv beta iota;
    [|exists "middle"; repeat split; [apply list_elem_of_In; cbn; tauto|exact H2]].
  destruct (self_fingers w !! "ring") as [f3|] eqn:H3; cbv beta iota;
    [|exists "ring"; repeat split; [apply list_elem_of_In; cbn; tauto|exact H3]].
  destruct (self_fingers w !! "pinky") as [f4|] eqn:H4; cbv beta iota;
    [|exists "pinky"; repeat split; [apply list_elem_of_In; cbn; tauto|exact H4]].
  exfalso. apply list_elem_of_In in Hin. cbn in Hin.
  repeat (destruct Hin as [<-|Hin]; [congruence|]). exact Hin.
Qed.

(** X8. A finger name missing from [self.fingers] makes the builder raise
    [KeyError] for a missing name and return no message; the joint names
    are cached all the same. *)
Theorem missing_finger_raises_KeyError (now : Time) (w : World) (k : string) :
  names_cached w ->
  k ∈ FINGER_NAMES -> self_fingers w !! k = None ->
  exists k',
    fst (build_joint_state_msg now w) = Raise (KeyError k') /\
    k' ∈ FINGER_NAMES /\ self_fingers w !! k' = None /\
    self_joint_names (snd (build_joint_state_msg now w))
    = joint_names_comprehension.
Proof.
  intros Hc Hin Hk.
  rewrite build_joint_state_msg_world, (cache_names_names w Hc).
  rewrite build_joint_state_msg_after_cache.
  pose proof (cache_names_names w Hc) as Hn.
  rewrite <- (cache_names_fingers w) in Hk.
  assert (Hsame : forall k', self_fingers (cache_names w) !! k' = None ->
                             self_fingers w !! k' = None)
    by (intros k'; rewrite cache_names_fingers; auto).
  set (w' := cache_names w) in *. clearbody w'.
  destruct (finger_list_KeyError w' k Hin Hk) as (k' & Hin' & Hk' & Hm).
  exists k'. split; [|split; [exact Hin'|split; [apply Hsame, Hk'|reflexivity]]].
  unfold build_joint_state_msg. rewrite bind_get.
  destruct (decide _) as [E|_]; [rewrite Hn in E; discriminate E|].
  rewrite (bind_Ok _ _ w' w' tt) by reflexivity.
  rewrite bind_get, Hn.
  run_fst.
  rewrite (bind_Raise _ _ _ _ _ Hm). reflexivity.
Qed.

Lemma missing_finger_raises_KeyError_witness :
  fst (build_joint_state_msg 7%Z blank_world) = Raise (KeyError "thumb").
Proof.
  destruct (missing_finger_raises_KeyError 7%Z blank_world "index")
    as (k' & Hr & _ & _ & _).
  - left. reflexivity.
  - apply list_elem_of_In. cbn. tauto.
  - reflexivity.
  - pose proof Hr as Hc. vm_compute in Hc. injection Hc as <-. exact Hr.
Defined.

(** X9. The builder trusts a cached list: with the five fingers in place
    and a cached joint name list that is not empty, a list of fewer than 63
    names makes it raise [IndexError], and a list of 63 names or more makes
    it return a message of 63 names and as many positions as the cached
    list is long. *)
Theorem builder_trusts_the_cache (now : Time) (w : World) :
  fingers_ready w -> self_joint_names w <> [] ->
  ((length (self_joint_names w) < 63)%nat ->
     fst (build_joint_state_msg now w) = Raise IndexError) /\
  ((63 <= length (self_joint_names w))%nat ->
     exists msg,
       fst (build_joint_state_msg now w) = Ok msg /\
       length (name msg) = 63%nat /\
       length (position msg) = length (self_joint_names w)).
Proof.
  intros Hr Hne.
  destruct (fingers_ready_lookup w Hr)
    as (f0 & f1 & f2 & f3 & f4 & H0 & H1 & H2 & H3 & H4).
  split.
  - intros Hlt. unfold build_joint_state_msg. rewrite bind_get.
    destruct (decide _) as [E|_]; [contradiction|].
    rewrite (bind_Ok _ _ w w tt) by reflexivity.
    rewrite bind_get.
    assert (Hpos : (0 < length (self_joint_names w))%nat)
      by (destruct (self_joint_names w); [contradiction|cbn; lia]).
    generalize dependent (length (self_joint_names w)). intros n Hlt Hpos.
    do 63 (destruct n as [|n];
           [ first
               [ exfalso; lia
               | run_fst; reflexivity
               | run_fst;
                 rewrite (bind_Ok _ _ _ _ _
                            (finger_list_Ok w f0 f1 f2 f3 f4 H0 H1 H2 H3 H4));
                 run_fst; reflexivity ]
           | ]).
    exfalso; lia.
  - intros Hge. unfold build_joint_state_msg. rewrite bind_get.
    destruct (decide _) as [E|_]; [contradiction|].
    rewrite (bind_Ok _ _ w w tt) by reflexivity.
    rewrite bind_get.
    replace (length (self_joint_names w))
      with (63 + (length (self_joint_names w) - 63))%nat by lia.
    generalize (length (self_joint_names w) - 63)%nat. intros k.
    eexists. split.
    + run_fst.
      rewrite (bind_Ok _ _ _ _ _
                 (finger_list_Ok w f0 f1 f2 f3 f4 H0 H1 H2 H3 H4)).
      run_fst. reflexivity.
    + split; [reflexivity|].
      cbn [position js_set_position length]. rewrite length_replicate.
      reflexivity.
Qed.

Lemma builder_trusts_the_cache_witness :
  fst (build_joint_state_msg 7%Z
         (set_joint_names ["hand.roll"] started_world))
  = Raise IndexError.
Proof.
  refine (proj1 (builder_trusts_the_cache 7%Z
                   (set_joint_names ["hand.roll"] started_world) _ _) _).
  - apply (on_init_Inv blank_world).
  - discriminate.
  - cbn. lia.
Defined.

(** ** More of [build_pose_stamped_msg] and [test_pose] *)

(** X10. With [test=False] the pose follows the frames: after [on_frame],
    in whatever world and at whatever stored time, the builder returns a
    message whose position is the palm position of the first hand of the
    frame, and whose orientation is the four numbers that
    [quaternion_from_euler] makes of the roll and the pitch of that hand's
    palm normal and the yaw of its direction, in that order; after a frame
    without a hand it is the pose of the hand kept from before. *)
Theorem pose_from_live_hand qfe (now : Time) (f : Frame) (w : World) :
  let h := match frame_hands f with [] => self_hand w | h :: _ => h end in
  exists msg,
    fst (build_pose_stamped_msg qfe now false (snd (on_frame f w))) = Ok msg /\
    (px (pose_position (pose msg)), py (pose_position (pose msg)),
     pz (pose_position (pose msg)))
    = (vx (palm_position h), vy (palm_position h), vz (palm_position h)) /\
    (qx (orientation (pose msg)), qy (orientation (pose msg)),
     qz (orientation (pose msg)), qw (orientation (pose msg)))
    = qfe (vroll (palm_normal h)) (vpitch (palm_normal h))
          (vyaw (hand_direction h)).
Proof.
  cbn zeta. eexists. rewrite build_pose_stamped_msg_live.
  cbn [fst pose pose_position orientation px py pz].
  assert (Hh : self_hand (snd (on_frame f w))
               = match frame_hands f with
                 | [] => self_hand w
                 | h :: _ => h
                 end).
  { rewrite on_frame_run. destruct (frame_hands f) as [|h rest];
      cbn [snd self_hand push_log]; [reflexivity|].
    rewrite (store_fingers_same self_hand) by reflexivity. reflexivity. }
  rewrite Hh. split; [reflexivity|]. split; [reflexivity|].
  destruct (qfe _ _ _) as [[[q0 q1] q2] q3]. reflexivity.
Qed.

(** The sample frame, in a world that has seen no hand and stores a time of
    its own: the palm of the sample hand, and its three angles, each from
    its own vector. *)
Lemma pose_from_live_hand_witness :
  exists msg,
    fst (build_pose_stamped_msg quaternion_from_euler_sxyz 5%Z false
           (snd (on_frame sample_frame (at_time 7)))) = Ok msg /\
    (px (pose_position (pose msg)), py (pose_position (pose msg)),
     pz (pose_position (pose msg))) = (10, 200, -30)%R /\
    (qx (orientation (pose msg)), qy (orientation (pose msg)),
     qz (orientation (pose msg)), qw (orientation (pose msg)))
    = quaternion_from_euler_sxyz (1 / 8) (1 / 2) (1 / 5).
Proof.
  exact (pose_from_live_hand quaternion_from_euler_sxyz 5%Z sample_frame
           (at_time 7)).
Defined.

(** X11. In both modes and in every world the pose builder returns a
    message, stamped with the clock reading and the frame id of the node;
    it prints that message once and changes nothing else: the stored time,
    the tracking data, the joint names, the log and the channels stay. *)
Theorem pose_builder_only_prints qfe (now : Time) (test : bool) (w : World) :
  exists msg,
    build_pose_stamped_msg qfe now test w = (Ok msg, push_stdout msg w) /\
    ps_header msg = mkHeader now "leap_tracker".
Proof.
  destruct test.
  - destruct (test_pose_Ok w) as [[[[x y] z] [[p yw] r]] Hw].
    eexists. split.
    + apply build_pose_stamped_msg_test with (x := x) (y := y) (z := z)
        (p := p) (yw := yw) (r := r).
      rewrite Hw. reflexivity.
    + reflexivity.
  - exists (mkPoseStamped (mkHeader now "leap_tracker")
              (mkPose
                 (mkPoint (vx (palm_position (self_hand w)))
                          (vy (palm_position (self_hand w)))
                          (vz (palm_position (self_hand w))))
                 (quaternion_of
                    (qfe (vroll (palm_normal (self_hand w)))
                         (vpitch (palm_normal (self_hand w)))
                         (vyaw (hand_direction (self_hand w))))))).
    split; reflexivity.
Qed.

(** X12. Whatever the stored time, the generated position components lie
    within [-1000, 1000] and the generated angles within [-2 PI, 2 PI]. *)
Theorem test_pose_bounded (w : World) (x y z pitch yaw roll : R) :
  fst (test_pose w) = Ok ((x, y, z), (pitch, yaw, roll)) ->
  (-1000 <= x <= 1000 /\ -1000 <= y <= 1000 /\ -1000 <= z <= 1000)%R /\
  (-(2 * PI) <= pitch <= 2 * PI /\ -(2 * PI) <= yaw <= 2 * PI /\
   -(2 * PI) <= roll <= 2 * PI)%R.
Proof.
  pose proof PI_RGT_0 as Hpi.
  pose proof (SIN_bound (self_t w)) as Hs.
  pose proof (COS_bound (self_t w)) as Hc.
  rewrite test_pose_unfold. cbn zeta.
  phase_cases; cbn [fst]; intros H; injection H as <- <- <- <- <- <-;
    repeat split; nra.
Qed.

Lemma test_pose_bounded_witness :
  (-1000 <= sin 0 * 1000 <= 1000)%R.
Proof.
  exact (proj1 (proj1 (test_pose_bounded blank_world _ _ _ _ _ _
                         test_pose_blank))).
Defined.

(** ** More of the loop *)

Lemma on_frame_t (f : Frame) : preserves (same self_t) (on_frame f).
Proof.
  intros w. unfold same. rewrite on_frame_run.
  destruct (frame_hands f); [reflexivity|].
  cbn [snd self_t push_log].
  rewrite (store_fingers_same self_t) by reflexivity. reflexivity.
Qed.

Lemma deliver_pubs (fs : list Frame) : preserves (same pubs) (deliver fs).
Proof. unfold deliver. structural. apply on_frame_pubs. Qed.

Lemma deliver_t (fs : list Frame) : preserves (same self_t) (deliver fs).
Proof. unfold deliver. structural. apply on_frame_t. Qed.

Lemma pubs_parts (w w' : World) :
  pubs w' = pubs w ->
  js_pub w' = js_pub w /\ ps_pub w' = ps_pub w /\ ts_pub w' = ts_pub w.
Proof. unfold pubs. intros H. injection H as H1 H2 H3. auto. Qed.

(** A quiet turn at the head of the environment, with what it adds. *)
Lemma publish_loop_quiet_counts qfe (tk : Tick) (env : list Tick)
      (w : World) :
  Inv w -> quiet tk ->
  exists w',
    Inv w' /\
    publish_loop qfe (tk :: env) false w = publish_loop qfe env false w' /\
    length (js_pub w') = S (length (js_pub w)) /\
    length (ps_pub w') = S (length (ps_pub w)) /\
    ts_pub w' = ts_pub w /\
    self_t w' = (self_t w + 1 / 100)%R.
Proof.
  intros HI (Hs & Hq & Ho).
  rewrite (publish_loop_enter qfe tk env w Hs (quiet_passes_test tk Ho)).
  destruct (deliver_Ok (frames tk) w) as [w1 Hd].
  assert (Hw1 : w1 = snd (deliver (frames tk) w)) by (rewrite Hd; reflexivity).
  assert (HI1 : Inv w1)
    by (rewrite Hw1; apply (deliver_stable inv_kept), HI).
  assert (Hp1 : pubs w1 = pubs w) by (rewrite Hw1; apply deliver_pubs).
  assert (Ht1 : self_t w1 = self_t w) by (rewrite Hw1; apply deliver_t).
  destruct (pubs_parts _ _ Hp1) as (Hjs1 & Hps1 & Hts1).
  destruct (iteration_quiet qfe tk w1 HI1 Hq) as (js & ps & _ & _ & Hit).
  assert (Hturn : turn qfe tk w1
                  = (Ok false,
                     set_t (self_t w1 + 1 / 100)
                       (push_ps ps
                          (push_js js (push_stdout ps (cache_names w1)))))).
  { unfold turn, try_except. rewrite (bind_Ok _ _ _ _ _ Hit). reflexivity. }
  exists (snd (turn qfe tk w1)). split; [|split].
  - apply (turn_stable inv_kept), HI1.
  - rewrite (bind_Ok _ _ _ _ _ Hd).
    rewrite (bind_Ok _ _ _ _ _ Hturn). rewrite Hturn. reflexivity.
  - rewrite Hturn.
    cbn [snd js_pub ps_pub ts_pub self_t set_t push_ps push_js push_stdout].
    rewrite cache_names_js_pub, cache_names_ps_pub, cache_names_ts_pub.
    rewrite !length_app, Hjs1, Hps1, Hts1, Ht1. cbn [length].
    repeat split; lia.
Qed.

Lemma publish_loop_shutdown qfe (pre post : list Tick) (tk : Tick)
      (w : World) :
  Inv w -> Forall quiet pre -> is_shutdown tk = true ->
  exists w',
    publish_loop qfe (pre ++ tk :: post) false w = (Ok tt, w') /\
    length (js_pub w') = (length (js_pub w) + length pre)%nat /\
    length (ps_pub w') = (length (ps_pub w) + length pre)%nat /\
    ts_pub w' = ts_pub w /\
    self_t w' = (self_t w + INR (length pre) / 100)%R.
Proof.
  intros HI Hpre Hs. revert w HI.
  induction Hpre as [|tk0 pre Hq _ IH]; intros w HI.
  - exists w. cbn [app publish_loop length]. rewrite Hs.
    repeat split; try lia. cbn [INR]. lra.
  - destruct (publish_loop_quiet_counts qfe tk0 (pre ++ tk :: post) w HI Hq)
      as (w1 & HI1 & Heq & Hjs & Hps & Hts & Ht).
    destruct (IH w1 HI1) as (w' & Hrun & Hjs' & Hps' & Hts' & Ht').
    exists w'. cbn [app]. rewrite Heq. split; [exact Hrun|].
    cbn [length]. rewrite Hjs', Hps', Hts', Ht', Hjs, Hps, Hts, Ht.
    rewrite S_INR. repeat split; try lia. lra.
Qed.

(** X13. A shutdown request after any number of quiet turns: the loop ends
    and [start_transmit] raises [QuitMessageException]; by then each quiet
    turn has put one message on the joint-state channel and one on the pose
    channel and has advanced the stored time by 0.01; the last log line is
    the quit command. *)
Theorem shutdown_after_quiet_turns qfe (pre post : list Tick) (tk : Tick)
        (w : World) :
  reachable qfe w -> Forall quiet pre -> is_shutdown tk = true ->
  exists w',
    start_transmit qfe (pre ++ tk :: post) w
    = (Raise (QuitMessageException "Quit message received from client"), w')
    /\
    length (js_pub w') = (length (js_pub w) + length pre)%nat /\
    length (ps_pub w') = (length (ps_pub w) + length pre)%nat /\
    ts_pub w' = ts_pub w /\
    self_t w' = (self_t w + INR (length pre) / 100)%R /\
    last (log w') = Some quit_sent.
Proof.
  intros Hr Hpre Hs. apply reachable_Inv in Hr.
  destruct (publish_loop_shutdown qfe pre post tk w Hr Hpre Hs)
    as (w' & Hrun & Hjs & Hps & Hts & Ht).
  exists (push_log quit_sent w'). split.
  - unfold start_transmit. rewrite (bind_Ok _ _ _ _ _ Hrun). reflexivity.
  - cbn [js_pub ps_pub ts_pub self_t log push_log].
    repeat split; try assumption. apply last_snoc.
Qed.

Lemma shutdown_after_quiet_turns_witness :
  exists w',
    start_transmit quaternion_from_euler_sxyz
      [quiet_tick; quiet_tick; mkTick true [] 5%Z 6%Z None None] started_world
    = (Raise (QuitMessageException "Quit message received from client"), w')
    /\ length (js_pub w') = 2%nat /\ length (ps_pub w') = 2%nat /\
    self_t w' = (0 + (1 + 1) / 100)%R.
Proof.
  assert (Hpre : Forall quiet [quiet_tick; quiet_tick])
    by (repeat constructor).
  destruct (shutdown_after_quiet_turns quaternion_from_euler_sxyz
              [quiet_tick; quiet_tick] [] (mkTick true [] 5%Z 6%Z None None)
              started_world)
    as (w' & Hrun & Hjs & Hps & _ & Ht & _).
  - exists blank_world. apply rtc_refl.
  - exact Hpre.
  - reflexivity.
  - exists w'. split; [exact Hrun|]. split; [exact Hjs|].
    split; [exact Hps|exact Ht].
Defined.

Lemma publish_loop_all_quiet qfe (env : list Tick) (w : World) :
  Inv w -> Forall quiet env ->
  fst (publish_loop qfe env false w) = Pending.
Proof.
  intros HI Henv. revert w HI.
  induction Henv as [|tk env Hq _ IH]; intros w HI; [reflexivity|].
  destruct (publish_loop_quiet_counts qfe tk env w HI Hq)
    as (w1 & HI1 & Heq & _).
  rewrite Heq. apply IH, HI1.
Qed.

(** X14. [start_transmit] never returns normally; and as long as every
    turn is quiet the loop is still running, however many turns that is:
    only a shutdown request, an interrupt or an exception ends it. *)
Theorem publish_loop_runs_until_stopped qfe (env : list Tick) (w : World) :
  reachable qfe w ->
  fst (start_transmit qfe env w) <> Ok tt /\
  (Forall quiet env -> fst (start_transmit qfe env w) = Pending).
Proof.
  intros Hr. apply reachable_Inv in Hr. split.
  - unfold start_transmit, bind.
    destruct (publish_loop qfe env false w) as [[[]|e|] w']; discriminate.
  - intros Henv. pose proof (publish_loop_all_quiet qfe env w Hr Henv) as H.
    unfold start_transmit, bind.
    destruct (publish_loop qfe env false w) as [r w']. cbn in H. subst r.
    reflexivity.
Qed.

Lemma publish_loop_runs_until_stopped_witness :
  fst (start_transmit quaternion_from_euler_sxyz
         [quiet_tick; quiet_tick; quiet_tick] started_world) = Pending.
Proof.
  refine (proj2 (publish_loop_runs_until_stopped quaternion_from_euler_sxyz
                   [quiet_tick; quiet_tick; quiet_tick] started_world _) _).
  - exists blank_world. apply rtc_refl.
  - repeat constructor.
Defined.

(** ** The two channels go together *)

(** What a turn's body adds to the channels: nothing, the joint-state
    message alone, or both messages; and both when it comes to its end. *)
Lemma iteration_counts qfe (tk : Tick) (w : World) :
  let r := fst (iteration qfe tk w) in
  let w' := snd (iteration qfe tk w) in
  (r <> Ok tt /\
   length (ps_pub w') = length (ps_pub w) /\
   (length (js_pub w') = length (js_pub w) \/
    length (js_pub w') = S (length (js_pub w)))) \/
  (length (js_pub w') = S (length (js_pub w)) /\
   length (ps_pub w') = S (length (ps_pub w))).
Proof.
  cbn zeta. destruct (iteration qfe tk w) as [r w'] eqn:Hit. cbn [fst snd].
  unfold iteration in Hit.
  pose proof (at_stmt_preserves (same pubs) tk S_build_js _
                (build_joint_state_msg_pubs (now_js tk)) w) as H1.
  unfold bind at 1 in Hit.
  destruct (at_stmt tk S_build_js (build_joint_state_msg (now_js tk)) w)
    as [[js|e|] w1]; cbn [snd] in H1;
    destruct (pubs_parts _ _ H1) as (Hjs1 & Hps1 & _);
    [|injection Hit as <- <-; left; rewrite Hjs1, Hps1;
      split; [discriminate|split; [reflexivity|left; reflexivity]]..].
  pose proof (at_stmt_preserves (same pubs) tk S_build_ps _
                (build_pose_stamped_msg_pubs qfe (now_ps tk) true) w1) as H2.
  unfold bind at 1 in Hit.
  destruct (at_stmt tk S_build_ps
              (build_pose_stamped_msg qfe (now_ps tk) true) w1)
    as [[ps|e|] w2]; cbn [snd] in H2;
    destruct (pubs_parts _ _ H2) as (Hjs2 & Hps2 & _);
    [|injection Hit as <- <-; left; rewrite Hjs2, Hps2, Hjs1, Hps1;
      split; [discriminate|split; [reflexivity|left; reflexivity]]..].
  unfold at_stmt in Hit. destruct (fault tk) as [[s e]|]; [destruct s|];
    cbn in Hit; injection Hit as <- <-;
    cbn [js_pub ps_pub set_t push_js push_ps];
    rewrite ?length_app, ?Hjs2, ?Hps2, ?Hjs1, ?Hps1; cbn [length];
    first [ right; split; lia
          | left; split; [discriminate|split; [lia|lia]] ].
Qed.

Lemma turn_counts qfe (tk : Tick) (w : World) :
  let r := fst (turn qfe tk w) in
  let w' := snd (turn qfe tk w) in
  (r <> Ok false /\
   length (ps_pub w') = length (ps_pub w) /\
   (length (js_pub w') = length (js_pub w) \/
    length (js_pub w') = S (length (js_pub w)))) \/
  (length (js_pub w') = S (length (js_pub w)) /\
   length (ps_pub w') = S (length (ps_pub w))).
Proof.
  cbn zeta. pose proof (iteration_counts qfe tk w) as H. cbn zeta in H.
  unfold turn, try_except, bind.
  destruct (iteration qfe tk w) as [[[]|e|] w1]; cbn [fst snd] in *.
  - destruct H as [[H _]|H]; [contradiction|]. right. exact H.
  - destruct (is_KeyboardInterrupt e); [unfold at_place|];
      [destruct (outside tk) as [[[] e']|]|];
      cbn [fst snd js_pub ps_pub push_log LOG_e modify ret raise decide
           decide_rel];
      (destruct H as [(_ & H)|H]; [left; split; [discriminate|exact H]|]);
      right; exact H.
  - destruct H as [(_ & H)|H]; [left; split; [discriminate|exact H]|].
    right; exact H.
Qed.

(** The loop test that finds [quitting] set leaves the world as it is,
    however it ends. *)
Lemma publish_loop_quitting_world qfe (env : list Tick) (w : World) :
  snd (publish_loop qfe env true w) = w.
Proof.
  destruct env as [|tk env]; cbn [publish_loop]; [reflexivity|].
  destruct (is_shutdown tk); [reflexivity|].
  unfold at_place. destruct (outside tk) as [[p e]|]; [|reflexivity].
  destruct (decide _); reflexivity.
Qed.

Lemma publish_loop_paired qfe (env : list Tick) (quitting : bool)
      (w : World) :
  let w' := snd (publish_loop qfe env quitting w) in
  exists n : nat,
    length (ps_pub w') = (length (ps_pub w) + n)%nat /\
    (length (js_pub w') = (length (js_pub w) + n)%nat \/
     length (js_pub w') = S (length (js_pub w) + n)).
Proof.
  cbn zeta. revert quitting w.
  induction env as [|tk env IH]; intros q w; cbn [publish_loop].
  { exists 0%nat. cbn [snd lift]. split; [lia|left; lia]. }
  destruct (is_shutdown tk);
    [exists 0%nat; cbn [snd ret]; split; [lia|left; lia]|].
  unfold at_place.
  assert (Hstruck : forall e0 : exn,
             exists n : nat,
               length (ps_pub (snd (raise (A:=unit) e0 w)))
               = (length (ps_pub w) + n)%nat /\
               (length (js_pub (snd (raise (A:=unit) e0 w)))
                = (length (js_pub w) + n)%nat \/
                length (js_pub (snd (raise (A:=unit) e0 w)))
                = S (length (js_pub w) + n)))
    by (intros e0; exists 0%nat; cbn [snd raise]; split; [lia|left; lia]).
  destruct (outside tk) as [[p e0]|];
    [destruct (decide (P_test = p)) as [Heq|Hne]; [apply Hstruck|]|];
    clear Hstruck.
  all: destruct q;
    [exists 0%nat; cbn [snd ret]; split; [lia|left; lia]|].
  all: destruct (deliver_Ok (frames tk) w) as [w1 Hd];
    assert (Hp1 : pubs w1 = pubs w)
      by (replace w1 with (snd (deliver (frames tk) w))
            by (rewrite Hd; reflexivity);
          apply deliver_pubs);
    destruct (pubs_parts _ _ Hp1) as (Hjs1 & Hps1 & _);
    rewrite (bind_Ok _ _ _ _ _ Hd);
    pose proof (turn_counts qfe tk w1) as Ht; cbn zeta in Ht;
    unfold bind;
    destruct (turn qfe tk w1) as [[q|e|] w2]; cbn [fst snd] in Ht.
  all: try (cbn [snd];
            destruct Ht as [(_ & Hps & Hjs)|[Hjs Hps]];
            [ exists 0%nat; rewrite Hps, Hps1; split; [lia|];
              destruct Hjs as [Hjs|Hjs]; rewrite Hjs, Hjs1; [left|right]; lia
            | exists 1%nat; rewrite Hps, Hps1, Hjs, Hjs1;
              split; [lia|left; lia] ]).
  all: destruct (IH q w2) as (n & Hn1 & Hn2);
    destruct Ht as [(Hq & Hps & Hjs)|[Hjs Hps]];
    [ destruct q; [|contradiction];
      rewrite publish_loop_quitting_world in *;
      exists 0%nat; rewrite Hps, Hps1; split; [lia|];
      destruct Hjs as [Hjs|Hjs]; rewrite Hjs, Hjs1; [left|right]; lia
    | exists (S n); rewrite Hn1, Hps, Hps1; split; [lia|];
      destruct Hn2 as [Hn2|Hn2]; rewrite Hn2, Hjs, Hjs1; [left|right]; lia ].
Qed.

(** X15. In every world and for every environment, whatever happens
    during a run of [start_transmit], the run adds some number of pose
    messages and that many joint-state messages or exactly one more: a pose
    message is never published without the joint-state message of its
    turn. *)
Theorem channels_stay_paired qfe (env : list Tick) (w : World) :
  let w' := snd (start_transmit qfe env w) in
  exists n : nat,
    length (ps_pub w') = (length (ps_pub w) + n)%nat /\
    (length (js_pub w') = (length (js_pub w) + n)%nat \/
     length (js_pub w') = (length (js_pub w) + n + 1)%nat).
Proof.
  cbn zeta. destruct (publish_loop_paired qfe env false w) as (n & Hps & Hjs).
  cbn zeta in Hps, Hjs. exists n.
  unfold start_transmit, bind.
  destruct (publish_loop qfe env false w) as [[[]|e|] w'];
    cbn [fst snd js_pub ps_pub push_log LOG_d modify raise] in *;
    (split; [exact Hps|]);
    (destruct Hjs as [Hjs|Hjs]; [left|right]; lia).
Qed.

(** ** More of [main] *)

(** X17. A shutdown requested before the first turn: [main] returns
    normally, having published nothing, and its log is the five lines of
    initialisation, prompt, quit command, quit message and end. *)
Theorem main_on_immediate_shutdown qfe (tk : Tick) (post : list Tick)
        (w : World) :
  is_shutdown tk = true ->
  exists w',
    main qfe (tk :: post) w = (Ok tt, w') /\
    log w' = log w ++
      [mkLog INFO "on_init" (Text "Initialized");
       mkLog INFO "main" (Text "Press ^C to quit...");
       quit_sent; quit_received; listener_end] /\
    pubs w' = ([], [], []).
Proof.
  intros Hs. eexists. split.
  - unfold main.
    rewrite (bind_Ok _ _ w (snd (on_init w)) tt) by reflexivity.
    unfold LOG_v at 1. rewrite bind_modify.
    unfold try_except, bind at 1, start_transmit.
    cbn [publish_loop]. rewrite Hs. reflexivity.
  - split; [|reflexivity].
    cbn [log push_log]. change (log (snd (on_init w)))
      with (log w ++ [mkLog INFO "on_init" (Text "Initialized")]).
    rewrite <- !app_assoc. reflexivity.
Qed.

Lemma main_on_immediate_shutdown_witness :
  exists w',
    main quaternion_from_euler_sxyz [mkTick true [] 0%Z 0%Z None None]
      blank_world
    = (Ok tt, w') /\
    length (log w') = 5%nat.
Proof.
  destruct (main_on_immediate_shutdown quaternion_from_euler_sxyz
              (mkTick true [] 0%Z 0%Z None None) [] blank_world eq_refl)
    as (w' & Hrun & Hlog & _).
  exists w'. split; [exact Hrun|]. rewrite Hlog. reflexivity.
Defined.

(** ** What reaches the joint-state channel *)

(** Where a turn's body leaves the world, fault by fault. *)
Lemma iteration_world qfe (tk : Tick) (w : World) :
  Inv w ->
  exists js ps,
    name js = joint_names_comprehension /\
    length (position js) = 63%nat /\
    snd (iteration qfe tk w) =
    let w1 := cache_names w in
    let w2 := push_stdout ps w1 in
    match fault tk with
    | Some (S_build_js, _) => w
    | Some (S_build_ps, _) => w1
    | Some (S_twist, _) | Some (S_pub_js, _) => w2
    | Some (S_pub_ps, _) => push_js js w2
    | Some (S_sleep, _) | Some (S_incr, _) => push_ps ps (push_js js w2)
    | None => set_t (self_t w + 1 / 100) (push_ps ps (push_js js w2))
    end.
Proof.
  intros HI.
  destruct (build_joint_state_msg_Inv (now_js tk) w HI)
    as (f0 & f1 & f2 & f3 & f4 & _ & _ & _ & _ & _ & Hjs).
  destruct (build_pose_stamped_msg_test_Ok qfe (now_ps tk) (cache_names w))
    as [ps Hps].
  exists (mkJointState (mkHeader (now_js tk) "") joint_names_comprehension
            (joint_values (self_hand w) [f0; f1; f2; f3; f4])), ps.
  split; [|split]; [reflexivity|reflexivity|].
  cbn zeta. destruct (fault tk) as [[s e]|] eqn:Hf.
  - unfold iteration.
    destruct s;
      repeat first
        [ rewrite (at_stmt_hit tk _ e) by exact Hf; reflexivity
        | rewrite (at_stmt_miss tk _ _ e) by (exact Hf || discriminate)
        | rewrite (bind_Ok _ _ _ _ _ Hjs)
        | rewrite (bind_Ok _ _ _ _ _ Hps)
        | rewrite bind_modify
        | rewrite (bind_Ok (ret _) _ _ _ _ eq_refl) ].
  - destruct (iteration_quiet qfe tk w HI Hf) as (js' & ps' & Hjs' & Hps' & Hit).
    rewrite Hit. rewrite Hjs in Hjs'. rewrite Hps in Hps'.
    injection Hjs' as <-. injection Hps' as <-. reflexivity.
Qed.

Lemma turn_js_pub qfe (tk : Tick) (w : World) :
  Inv w ->
  exists l,
    js_pub (snd (turn qfe tk w)) = js_pub w ++ l /\
    Forall (fun m => name m = joint_names_comprehension /\
                     length (position m) = 63%nat) l.
Proof.
  intros HI. destruct (iteration_world qfe tk w HI) as (js & ps & Hn & Hl & Hw).
  assert (Hturn : js_pub (snd (turn qfe tk w))
                  = js_pub (snd (iteration qfe tk w))).
  { destruct (turn_world qfe tk w) as [-> | ->]; reflexivity. }
  rewrite Hturn, Hw. cbn zeta.
  destruct (fault tk) as [[[] e]|];
    cbn [js_pub set_t push_ps push_js push_stdout];
    rewrite ?cache_names_js_pub;
    first [ exists []; split; [symmetry; apply app_nil_r|constructor]
          | exists [js]; split; [reflexivity|repeat constructor; assumption] ].
Qed.

Lemma publish_loop_js_pub qfe (env : list Tick) (quitting : bool)
      (w : World) :
  Inv w ->
  exists l,
    js_pub (snd (publish_loop qfe env quitting w)) = js_pub w ++ l /\
    Forall (fun m => name m = joint_names_comprehension /\
                     length (position m) = 63%nat) l.
Proof.
  revert quitting w.
  induction env as [|tk env IH]; intros q w HI; cbn [publish_loop];
    [exists []; split; [symmetry; apply app_nil_r|constructor]|].
  destruct (is_shutdown tk);
    [exists []; split; [symmetry; apply app_nil_r|constructor]|].
  unfold at_place.
  destruct (outside tk) as [[p e0]|];
    [destruct (decide (P_test = p)) as [Heq|Hne];
     [exists []; split; [symmetry; apply app_nil_r|constructor]|]|].
  all: destruct q;
    [exists []; split; [symmetry; apply app_nil_r|constructor]|].
  all: destruct (deliver_Ok (frames tk) w) as [w1 Hd];
    assert (Hw1 : w1 = snd (deliver (frames tk) w))
      by (rewrite Hd; reflexivity);
    assert (HI1 : Inv w1)
      by (rewrite Hw1; apply (deliver_stable inv_kept), HI);
    assert (Hp1 : pubs w1 = pubs w) by (rewrite Hw1; apply deliver_pubs);
    destruct (pubs_parts _ _ Hp1) as (Hjs1 & _ & _);
    rewrite (bind_Ok _ _ _ _ _ Hd);
    destruct (turn_js_pub qfe tk w1 HI1) as (l1 & Hl1 & Hwf1);
    pose proof (turn_stable inv_kept qfe tk w1 HI1) as HI2;
    unfold bind;
    destruct (turn qfe tk w1) as [[q|e|] w2]; cbn [snd] in *.
  all: try (exists l1; rewrite Hl1, Hjs1; split; [reflexivity|exact Hwf1]).
  all: destruct (IH q w2 HI2) as (l2 & Hl2 & Hwf2);
    exists (l1 ++ l2); split;
    [ rewrite Hl2, Hl1, Hjs1; symmetry; apply app_assoc
    | apply Forall_app; split; assumption ].
Qed.

(** X18. Every joint-state message a run of [start_transmit] publishes,
    from a state the running server reaches and however the run goes,
    carries the 63 joint names in their fixed order and 63 positions; the
    messages already on the channel stay in front. *)
Theorem published_joint_states_are_complete qfe (env : list Tick)
        (w : World) :
  reachable qfe w ->
  exists l,
    js_pub (snd (start_transmit qfe env w)) = js_pub w ++ l /\
    Forall (fun m => name m = joint_names_comprehension /\
                     length (position m) = 63%nat) l.
Proof.
  intros Hr. apply reachable_Inv in Hr.
  destruct (publish_loop_js_pub qfe env false w Hr) as (l & Hl & Hwf).
  exists l. split; [|exact Hwf].
  unfold start_transmit, bind.
  destruct (publish_loop qfe env false w) as [[[]|e|] w']; exact Hl.
Qed.

Lemma published_joint_states_are_complete_witness :
  exists l,
    js_pub (snd (start_transmit quaternion_from_euler_sxyz
                   [quiet_tick; interrupted_tick] started_world)) = l /\
    Forall (fun m => length (name m) = 63%nat /\
                     length (position m) = 63%nat) l.
Proof.
  destruct (published_joint_states_are_complete quaternion_from_euler_sxyz
              [quiet_tick; interrupted_tick] started_world)
    as (l & Hl & Hwf).
  - exists blank_world. apply rtc_refl.
  - exists l. split; [exact Hl|].
    eapply Forall_impl; [exact Hwf|].
    intros m [Hn Hp]. rewrite Hn. split; [reflexivity|exact Hp].
Defined.

(** X19. The stored time advances only with whole turns: in a state the
    running server reaches, a turn without a fault adds 0.01 to it, and a
    turn cut short by any exception, wherever it strikes, leaves it as it
    was. *)
Theorem stored_time_advances_with_whole_turns qfe (tk : Tick) (w : World) :
  reachable qfe w ->
  self_t (snd (turn qfe tk w))
  = match fault tk with
    | None => (self_t w + 1 / 100)%R
    | Some _ => self_t w
    end.
Proof.
  intros Hr. apply reachable_Inv in Hr.
  destruct (iteration_world qfe tk w Hr) as (js & ps & _ & _ & Hw).
  assert (Hturn : self_t (snd (turn qfe tk w))
                  = self_t (snd (iteration qfe tk w))).
  { destruct (turn_world qfe tk w) as [-> | ->]; reflexivity. }
  rewrite Hturn, Hw. cbn zeta.
  destruct (fault tk) as [[[] e]|];
    cbn [self_t set_t push_ps push_js push_stdout];
    rewrite ?cache_names_t; reflexivity.
Qed.

Lemma stored_time_advances_with_whole_turns_witness :
  self_t (snd (turn quaternion_from_euler_sxyz interrupted_tick
                 started_world)) = 0%R /\
  self_t (snd (turn quaternion_from_euler_sxyz quiet_tick started_world))
  = (0 + 1 / 100)%R.
Proof.
  assert (Hr : reachable quaternion_from_euler_sxyz started_world)
    by (exists blank_world; apply rtc_refl).
  split.
  - exact (stored_time_advances_with_whole_turns
             quaternion_from_euler_sxyz interrupted_tick started_world Hr).
  - exact (stored_time_advances_with_whole_turns
             quaternion_from_euler_sxyz quiet_tick started_world Hr).
Defined.
